(** * Voice tuner: pitch detection, note mapping and the listening session

    A shallow embedding of [services/audioService.ts] (the pure functions
    [findFundamentalFrequency], [frequencyToNoteDetails], [getFrequencyForNote])
    and of the stateful part of the [App] component ([processAudio],
    [startListening], [stopListening], the display interval and the freeze
    timeout), together with the properties the specification states about them.

    Numbers.  A JavaScript number is an IEEE double.  The detector and the
    session only add, multiply, divide and compare, so they are embedded over
    the rationals [Q] (exact arithmetic, executable); the one place where the
    source produces a NaN from finite samples, [0 / 0] for an empty buffer, is
    written out.  The note mapper uses [Math.log], [Math.log2] and [Math.pow]
    and is embedded over the reals [R].  Array indices, lags and millisecond
    timestamps are integers [Z]. *)

From Stdlib Require Import String Reals.
From Stdlib Require Import List ZArith QArith Qround Qabs Lia Psatz Bool.
Import ListNotations.

Open Scope Z_scope.
Open Scope Q_scope.

(** ** JavaScript arrays of numbers *)

Module Js.

(** [a[i]]: reading outside [0 .. length-1] gives [undefined] ([None]). *)
Definition get (a : list Q) (i : Z) : option Q :=
  if (i <? 0)%Z then None else nth_error a (Z.to_nat i).

(** [a[i] = v] for an index inside the array.  A negative key is an ordinary
    property, not an element: the elements are unchanged. *)
Fixpoint set_nat (a : list Q) (n : nat) (v : Q) : list Q :=
  match a, n with
  | [], _ => []
  | _ :: t, O => v :: t
  | h :: t, S n' => h :: set_nat t n' v
  end.

Definition set (a : list Q) (i : Z) (v : Q) : list Q :=
  if (i <? 0)%Z then a else set_nat a (Z.to_nat i) v.

(** [x < y] on numbers. *)
Definition ltb (x y : Q) : bool :=
  match x ?= y with Lt => true | _ => false end.

(** [x > y] on values that may be [undefined]: a comparison with [undefined]
    is false. *)
Definition gt (x y : option Q) : bool :=
  match x, y with
  | Some u, Some v => ltb v u
  | _, _ => false
  end.

(** [x || 0] on a number that may be [undefined]: [undefined] and [0] are
    falsy. *)
Definition or0 (x : option Q) : Q :=
  match x with
  | Some u => if Qeq_bool u 0 then 0 else u
  | None => 0
  end.

(** The value of an element read that the surrounding guard keeps in range. *)
Definition num (x : option Q) : Q :=
  match x with Some u => u | None => 0 end.

(** The integers [lo, lo+1, ..., hi-1] visited by
    [for (let i = lo; i < hi; i++)]. *)
Definition range (lo hi : Z) : list Z :=
  map (fun k => (lo + Z.of_nat k)%Z) (seq 0 (Z.to_nat (hi - lo))).

(** [new Array(len)]: a length that is not an integer in [0, 2^32 - 1] raises
    a RangeError. *)
Definition valid_length (len : Z) : bool :=
  (0 <=? len)%Z && (len <=? 4294967295)%Z.

End Js.

(** ** services/audioService.ts: findFundamentalFrequency *)

(** What a call does: it returns a number or throws (the only throw the body
    can reach is the RangeError of [new Array]). *)
Inductive Completion : Type :=
| Return (v : Q)
| ThrowRangeError.

Definition maxFreq : Q := 200.
Definition minFreq : Q := 80.

(** [buffer.reduce((sum, val) => sum + val * val, 0)] *)
Definition sumSquares (buffer : list Q) : Q :=
  fold_left (fun sum val => sum + val * val) buffer 0.

(** The test [rms < 0.01] where [rms = Math.sqrt(sumSquares / size)].
    For an empty buffer the quotient is [0 / 0 = NaN] and the comparison is
    false.  Otherwise the mean square [m] is a non-negative number and
    [sqrt m < 0.01] is [m < 0.01 * 0.01]. *)
Definition rmsBelowThreshold (buffer : list Q) : bool :=
  match buffer with
  | [] => false
  | _ => Js.ltb (sumSquares buffer / inject_Z (Z.of_nat (length buffer)))
                    (0.01 * 0.01)
  end.

(** The inner loop
    [for (let i = 0; i < size - lag; i++) correlations[lag] += buffer[i] * buffer[i + lag]]. *)
Definition accumulateLag (buffer : list Q) (correlations : list Q) (lag : Z) : list Q :=
  fold_left
    (fun corr i =>
       Js.set corr lag
         (Js.num (Js.get corr lag) + Js.num (Js.get buffer i) * Js.num (Js.get buffer (i + lag))))
    (Js.range 0 (Z.of_nat (length buffer) - lag))
    correlations.

(** [new Array(searchSize).fill(0)] followed by the outer loop over
    [lag = minPeriod .. searchSize - 1]. *)
Definition autocorrelate (buffer : list Q) (minPeriod searchSize : Z) : list Q :=
  fold_left (accumulateLag buffer)
            (Js.range minPeriod searchSize)
            (repeat 0 (Z.to_nat searchSize)).

(** The [while] loop that advances [firstDip]; it runs at most
    [searchSize - 1] times, [fuel] bounds the number of iterations. *)
Fixpoint firstDipLoop (fuel : nat) (correlations : list Q) (searchSize firstDip : Z) : Z :=
  match fuel with
  | O => firstDip
  | S fuel' =>
      if (firstDip <? searchSize - 1)%Z
         && Js.gt (Js.get correlations firstDip) (Js.get correlations (firstDip + 1))
      then firstDipLoop fuel' correlations searchSize (firstDip + 1)
      else firstDip
  end.

Definition findFirstDip (correlations : list Q) (searchSize : Z) : Z :=
  firstDipLoop (Z.to_nat searchSize) correlations searchSize 0.

(** [if (correlations[i] > maxVal) maxVal = correlations[i]] *)
Definition maxStep (correlations : list Q) (maxVal : Q) (i : Z) : Q :=
  if Js.gt (Js.get correlations i) (Some maxVal)
  then Js.num (Js.get correlations i) else maxVal.

(** [let maxVal = -1; for (i = searchStart; i < searchSize; i++) ...] *)
Definition findMaxVal (correlations : list Q) (searchStart searchSize : Z) : Q :=
  fold_left (maxStep correlations) (Js.range searchStart searchSize) (-1).

(** The condition of the peak scan at lag [i]. *)
Definition isClearPeak (correlations : list Q) (clarityThreshold : Q) (i : Z) : bool :=
  Js.gt (Js.get correlations i) (Some clarityThreshold)
  && Js.gt (Js.get correlations i) (Js.get correlations (i - 1))
  && Js.gt (Js.get correlations i) (Js.get correlations (i + 1)).

(** [let period = -1; for (i = searchStart; i < searchSize - 1; i++)
      if (...) { period = i; break; }] *)
Definition firstClearPeak (correlations : list Q) (clarityThreshold : Q)
           (searchStart searchSize : Z) : Z :=
  match find (isClearPeak correlations clarityThreshold)
             (Js.range searchStart (searchSize - 1)) with
  | Some i => i
  | None => (-1)%Z
  end.

(** The fallback loop: position of the first largest value above [-1]. *)
Definition fallbackMaxPos (correlations : list Q) (searchStart searchSize : Z) : Z :=
  snd (fold_left
         (fun '(fallbackMaxVal, maxPos) i =>
            if Js.gt (Js.get correlations i) (Some fallbackMaxVal)
            then (Js.num (Js.get correlations i), i)
            else (fallbackMaxVal, maxPos))
         (Js.range searchStart searchSize)
         (-1, (-1)%Z)).

Definition choosePeriod (correlations : list Q) (clarityThreshold : Q)
           (searchStart searchSize : Z) : Z :=
  let period := firstClearPeak correlations clarityThreshold searchStart searchSize in
  if (period =? -1)%Z
  then fallbackMaxPos correlations searchStart searchSize
  else period.

(** The tail of the function from [if (period <= 0)] on. *)
Definition frequencyOfPeriod (correlations : list Q) (searchSize : Z)
           (sampleRate : Q) (period : Z) : Q :=
  if (period <=? 0)%Z then 0
  else
    let plain := sampleRate / inject_Z period in
    if (0 <? period)%Z && (period <? searchSize - 1)%Z then
      let T0 := period in
      let y_minus_1 := Js.or0 (Js.get correlations (T0 - 1)) in
      let y_0 := Js.num (Js.get correlations T0) in
      let y_plus_1 := Js.or0 (Js.get correlations (T0 + 1)) in
      let pNumerator := y_plus_1 - y_minus_1 in
      let pDenominator := 2 * (2 * y_0 - y_plus_1 - y_minus_1) in
      if negb (Qeq_bool pDenominator 0) then
        let p := pNumerator / pDenominator in
        let corrected_T := inject_Z T0 + p in
        if Qle_bool corrected_T 0 then 0
        else sampleRate / corrected_T
      else plain
    else plain.

(** The locals of [findFundamentalFrequency], as functions of its arguments. *)
Definition minPeriodOf (sampleRate : Q) : Z := Qfloor (sampleRate / maxFreq).
Definition searchSizeOf (sampleRate : Q) : Z := Qceiling (sampleRate / minFreq).

Definition correlationsOf (buffer : list Q) (sampleRate : Q) : list Q :=
  autocorrelate buffer (minPeriodOf sampleRate) (searchSizeOf sampleRate).

Definition searchStartOf (buffer : list Q) (sampleRate : Q) : Z :=
  Z.max (minPeriodOf sampleRate)
        (findFirstDip (correlationsOf buffer sampleRate) (searchSizeOf sampleRate)).

Definition maxValOf (buffer : list Q) (sampleRate : Q) : Q :=
  findMaxVal (correlationsOf buffer sampleRate)
             (searchStartOf buffer sampleRate) (searchSizeOf sampleRate).

Definition periodOf (buffer : list Q) (sampleRate : Q) : Z :=
  choosePeriod (correlationsOf buffer sampleRate)
               (maxValOf buffer sampleRate * 0.9)
               (searchStartOf buffer sampleRate) (searchSizeOf sampleRate).

Definition findFundamentalFrequency (buffer : list Q) (sampleRate : Q) : Completion :=
  if rmsBelowThreshold buffer then Return 0
  else
    let searchSize := searchSizeOf sampleRate in
    if negb (Js.valid_length searchSize) then ThrowRangeError
    else
      let correlations := correlationsOf buffer sampleRate in
      let maxVal := maxValOf buffer sampleRate in
      if Qle_bool maxVal 0 then Return 0
      else Return (frequencyOfPeriod correlations searchSize sampleRate
                                     (periodOf buffer sampleRate)).

(** ** App.tsx: the listening session *)

Module App.

Definition SMOOTHING_ALPHA : Q := 0.055.
Definition PAUSE_THRESHOLD_MS : Z := 500.
Definition FREEZE_ON_SILENCE_MS : Z := 5000.

(** An element of [frequencyHistoryRef.current]. *)
Record Reading : Type := mkReading { freq : Q; timestamp : Z }.

(** The React state and the refs of the component that the audio loop, the
    timers and the toggle button read or write.

    [resetStateTimeoutRef] holds the handle of the pending freeze timeout; the
    model keeps its due time.  [animationFrameId] holds the pending frame
    request; the model keeps which [processAudio] closure was passed to
    [requestAnimationFrame], identified by the value of [isListening] that the
    closure captured: [processAudio] is [useCallback(..., [isListening])], so a
    render with a given [isListening] yields the closure that captured that
    value, and inside the closure the name [processAudio] denotes the closure
    itself. *)
Record State : Type := mkState {
  isListening : bool;
  detectedFrequency : Q;
  displayedFrequency : Q;
  averageFrequency : Q;
  smoothedFrequencyRef : Q;
  frequencyHistoryRef : list Reading;
  lastSoundTimestampRef : Z;
  resetStateTimeoutRef : option Z;
  animationFrameId : option bool
}.

(** The component before the first click. *)
Definition initial : State :=
  mkState false 0 0 0 0 [] 0 None None.

(** [SMOOTHING_ALPHA * fundamentalFrequency
     + (1 - SMOOTHING_ALPHA) * smoothedFrequencyRef.current] *)
Definition smooth (fundamentalFrequency smoothed : Q) : Q :=
  SMOOTHING_ALPHA * fundamentalFrequency + (1 - SMOOTHING_ALPHA) * smoothed.

(** [fundamentalFrequency >= 80 && fundamentalFrequency <= 200] *)
Definition isFrequencyInRange (fundamentalFrequency : Q) : bool :=
  Qle_bool 80 fundamentalFrequency && Qle_bool fundamentalFrequency 200.

(** [history.reduce((sum, r) => sum + r.freq, 0)] *)
Definition total (history : list Reading) : Q :=
  fold_left (fun sum r => sum + freq r) history 0.

(** The value passed to [setAverageFrequency]. *)
Definition averageOf (history : list Reading) : Q :=
  match history with
  | [] => 0
  | _ => total history / inject_Z (Z.of_nat (length history))
  end.

(** The body of [processAudio] from the point where
    [findFundamentalFrequency] has returned [fundamentalFrequency] (the
    analyser and the audio context exist from [startListening] until
    [stopListening], which also cancels the pending frame, so the early
    [return] is not taken by a frame that runs).  [captured] is the
    [isListening] of the closure that runs; [now] is the value of
    [Date.now()], read as one instant for the whole tick.  The last line
    requests the next frame for the same closure. *)
Definition processAudio (captured : bool) (fundamentalFrequency : Q) (now : Z)
           (st : State) : State :=
  let st1 :=
    if isFrequencyInRange fundamentalFrequency then
      let newSmoothedFrequency := smooth fundamentalFrequency (smoothedFrequencyRef st) in
      mkState (isListening st)
              newSmoothedFrequency
              (displayedFrequency st)
              (averageFrequency st)
              newSmoothedFrequency
              (frequencyHistoryRef st ++ [mkReading newSmoothedFrequency now])
              now
              None
              (animationFrameId st)
    else
      match resetStateTimeoutRef st with
      | None =>
          if captured then
            mkState (isListening st) (detectedFrequency st) (displayedFrequency st)
                    (averageFrequency st) (smoothedFrequencyRef st)
                    (frequencyHistoryRef st) (lastSoundTimestampRef st)
                    (Some (now + FREEZE_ON_SILENCE_MS)%Z)
                    (animationFrameId st)
          else st
      | Some _ => st
      end in
  let recent :=
    filter (fun reading => (now - timestamp reading <? 3000)%Z) (frequencyHistoryRef st1) in
  let timeSinceLastSound := (now - lastSoundTimestampRef st1)%Z in
  let history :=
    if (timeSinceLastSound >? PAUSE_THRESHOLD_MS)%Z then [] else recent in
  mkState (isListening st1) (detectedFrequency st1) (displayedFrequency st1)
          (averageOf history) (smoothedFrequencyRef st1)
          history (lastSoundTimestampRef st1) (resetStateTimeoutRef st1)
          (Some captured).

(** The callback given to [setTimeout] in [processAudio]. *)
Definition resetStateTimeout (st : State) : State :=
  mkState (isListening st) 0 0 (averageFrequency st) 0
          (frequencyHistoryRef st) (lastSoundTimestampRef st) None
          (animationFrameId st).

(** The callback given to [setInterval] while [isListening]. *)
Definition displayInterval (st : State) : State :=
  if Js.ltb 1 (smoothedFrequencyRef st) then
    mkState (isListening st) (detectedFrequency st) (smoothedFrequencyRef st)
            (averageFrequency st) (smoothedFrequencyRef st)
            (frequencyHistoryRef st) (lastSoundTimestampRef st)
            (resetStateTimeoutRef st) (animationFrameId st)
  else st.

(** [startListening], run to completion.  [captured] identifies the
    [processAudio] closure that this [startListening] closes over; [granted]
    tells whether [getUserMedia] resolved (otherwise the [catch] branch
    runs). *)
Definition startListening (captured granted : bool) (st : State) : State :=
  if granted then
    mkState true (detectedFrequency st) 0 0 0 [] 0
            (resetStateTimeoutRef st) (Some captured)
  else
    mkState false (detectedFrequency st) 0 0 0 [] 0
            (resetStateTimeoutRef st) (animationFrameId st).

Definition stopListening (st : State) : State :=
  mkState false 0 0 0 0 [] 0 None None.

(** [handleToggleListening] of the current render.  Its [startListening] is
    [useCallback(..., [processAudio, isMobile])] and closes over the
    [processAudio] of the same render, which captured the current
    [isListening]; that closure is the one [startListening] passes to
    [requestAnimationFrame]. *)
Definition handleToggleListening (granted : bool) (st : State) : State :=
  if isListening st then stopListening st
  else startListening (isListening st) granted st.

(** What can happen to the component. *)
Inductive Event : Type :=
| Click (granted : bool)
| AnimationFrame (fundamentalFrequency : Q) (now : Z)
| TimeoutElapsed (now : Z)
| IntervalElapsed.

(** One event: a frame runs the closure that was requested, the freeze
    timeout runs once it is due, the interval exists while [isListening]. *)
Definition handle (st : State) (e : Event) : State :=
  match e with
  | Click granted => handleToggleListening granted st
  | AnimationFrame fundamentalFrequency now =>
      match animationFrameId st with
      | Some captured => processAudio captured fundamentalFrequency now st
      | None => st
      end
  | TimeoutElapsed now =>
      match resetStateTimeoutRef st with
      | Some due => if (due <=? now)%Z then resetStateTimeout st else st
      | None => st
      end
  | IntervalElapsed =>
      if isListening st then displayInterval st else st
  end.

Definition run (st : State) (events : list Event) : State :=
  fold_left handle events st.

(** The JSX expression
    [averageFrequency > 0 ? averageFrequency.toFixed(1) : '--']:
    the number that is shown, or [None] for the placeholder. *)
Definition shownAverage (st : State) : option Q :=
  if Js.ltb 0 (averageFrequency st) then Some (averageFrequency st) else None.

End App.

(** ** services/audioService.ts: the note mapper *)

Module NoteMapper.

Local Open Scope R_scope.

Definition A4_FREQUENCY : R := 440.

Definition NOTE_NAMES : list string :=
  ["A"; "A#"; "B"; "C"; "C#"; "D"; "D#"; "E"; "F"; "F#"; "G"; "G#"]%string.

(** [NOTE_NAMES[noteIndex]]: [undefined] ([None]) outside [0 .. 11]. *)
Definition nameAt (noteIndex : Z) : option string :=
  if (noteIndex <? 0)%Z then None else nth_error NOTE_NAMES (Z.to_nat noteIndex).

(** [names.indexOf(x)] counted from [from]: the first position holding [x],
    or [-1]. *)
Fixpoint indexFrom (from : Z) (names : list string) (x : option string) : Z :=
  match names with
  | [] => (-1)%Z
  | n :: rest =>
      match x with
      | Some s => if String.eqb n s then from else indexFrom (from + 1) rest x
      | None => indexFrom (from + 1) rest x
      end
  end.

Definition indexOf (x : option string) : Z := indexFrom 0 NOTE_NAMES x.

(** [Math.round]: the nearest integer, halves rounded up. *)
Definition Math_round (x : R) : Z := Zfloor (x + / 2).

(** [Math.log2] *)
Definition Math_log2 (x : R) : R := ln x / ln 2.

Definition getFrequencyForNote (noteName : option string) (octave : Z) : R :=
  let noteIndex := indexOf noteName in
  let noteNumber := (noteIndex + octave * 12)%Z in
  A4_FREQUENCY * Rpower 2 (IZR (noteNumber - 57) / 12).

Record NoteDetails : Type := mkNoteDetails {
  noteName : option string;
  octave : Z;
  frequency : R;
  cents : R
}.

(** [roundedNoteNumber % 12] is the remainder with the sign of the dividend
    ([Z.rem]); [Math.floor(roundedNoteNumber / 12)] is [Z.div]. *)
Definition frequencyToNoteDetails (frequency : R) : option NoteDetails :=
  if Req_dec_T frequency 0 then None
  else
    let noteNumber := 12 * (ln (frequency / A4_FREQUENCY) / ln 2) in
    let roundedNoteNumber := (Math_round noteNumber + 57)%Z in
    let noteIndex := Z.rem roundedNoteNumber 12 in
    let octave := (roundedNoteNumber / 12)%Z in
    let noteName := nameAt noteIndex in
    let targetFrequency := getFrequencyForNote noteName octave in
    let cents := 1200 * Math_log2 (frequency / targetFrequency) in
    Some (mkNoteDetails noteName octave targetFrequency cents).

End NoteMapper.

(** ** Notions used to state the properties of the detector *)

(** The autocorrelation sum [R(lag) = x[0]*x[lag] + x[1]*x[1+lag] + ...] over
    [i < size - lag], added up in the order of the source, starting from
    [start]. *)
Definition correlationFrom (buffer : list Q) (lag : Z) (start : Q) : Q :=
  fold_left
    (fun acc i => acc + Js.num (Js.get buffer i) * Js.num (Js.get buffer (i + lag)))
    (Js.range 0 (Z.of_nat (length buffer) - lag))
    start.

Definition correlationAt (buffer : list Q) (lag : Z) : Q :=
  correlationFrom buffer lag 0.

(** [M] is the largest value that the array [R] holds at the lags
    [lo .. hi - 1]. *)
Definition IsMaximumOver (R : Z -> option Q) (lo hi : Z) (M : Q) : Prop :=
  (forall i v, (lo <= i < hi)%Z -> R i = Some v -> v <= M)
  /\ (exists i v, (lo <= i < hi)%Z /\ R i = Some v /\ v == M).

(** Lag [i] is a local maximum of [R] ([R[i] > R[i-1]] and [R[i] > R[i+1]])
    whose value exceeds [threshold]. *)
Definition LocalMaxAbove (R : Z -> option Q) (threshold : Q) (i : Z) : Prop :=
  exists below here above,
    R (i - 1)%Z = Some below /\ R i = Some here /\ R (i + 1)%Z = Some above
    /\ below < here /\ above < here /\ threshold < here.

(** A call returns the number [q]. *)
Definition Returns (c : Completion) (q : Q) : Prop :=
  exists v, c = Return v /\ v == q.

(** A structurally invalid frame: an empty sample buffer or a sample rate
    that is not positive. *)
Definition InvalidFrame (buffer : list Q) (sampleRate : Q) : Prop :=
  buffer = [] \/ sampleRate <= 0.

(** The call reports a failure to its caller. *)
Definition Rejected (c : Completion) : Prop :=
  match c with
  | Return _ => False
  | ThrowRangeError => True
  end.

(** A buffer whose correlations at 480 Hz are [0, 0, 5/2, -3, 11/4, -1]:
    lags 2 and 4 are both local maxima above 0.9 * 11/4 and lag 4 is the
    taller. *)
Definition twoPeaks : list Q := [1; -1; -(1#2); -1; 1; -1; 1#2; -1].

(** A buffer whose correlations at 400 Hz are [0, 0, 0, 1, 2]: they rise up
    to the last lag of the array. *)
Definition risingCorrelation : list Q := [1; 1; 0; 0; 1; 1].

(** A buffer whose autocorrelation at the lags 1 to 5 is 1, 11/16, 1/2, 3/4,
    1/2: it falls from lag 1 to lag 3 and has its first local maximum at
    lag 4. *)
Definition fallingSlope : list Q := [1#2; 1#2; 1#4; 0; 3#4; 1#2; 1#2].

(** Lag [i] is a local maximum of the autocorrelation of the buffer, taken at
    every lag (also below [minPeriod]), whose value exceeds [threshold]. *)
Definition isAutocorrelationPeak (buffer : list Q) (threshold : Q) (i : Z) : bool :=
  Js.ltb threshold (correlationAt buffer i)
  && Js.ltb (correlationAt buffer (i - 1)) (correlationAt buffer i)
  && Js.ltb (correlationAt buffer (i + 1)) (correlationAt buffer i).

(** The period as the specification words it: the first lag of the search
    range, in increasing order, that is a local maximum of the
    autocorrelation above 0.9 times the maximum over the range. *)
Definition claimedPeriod (buffer : list Q) (sampleRate : Q) : option Z :=
  find (isAutocorrelationPeak buffer (0.9 * maxValOf buffer sampleRate))
       (Js.range (searchStartOf buffer sampleRate) (searchSizeOf sampleRate)).

(** The refinement as the specification words it: every chosen lag [T0] is
    interpolated through [R[T0-1]], [R[T0]], [R[T0+1]], a neighbour that is
    missing at an edge of the array counting as 0. *)
Definition claimedFrequency (R : Z -> option Q) (sampleRate : Q) (T0 : Z) : Q :=
  let valueOr0 i := match R i with Some v => v | None => 0 end in
  let denominator := 2 * (2 * valueOr0 T0 - valueOr0 (T0 + 1)%Z - valueOr0 (T0 - 1)%Z) in
  if Qeq_bool denominator 0 then sampleRate / inject_Z T0
  else
    let p := (valueOr0 (T0 + 1)%Z - valueOr0 (T0 - 1)%Z) / denominator in
    let corrected := inject_Z T0 + p in
    if Qle_bool corrected 0 then 0 else sampleRate / corrected.

(** ** Notions used to state the properties of the session *)

(** An event that brings no valid sound and does not toggle the session: a
    frame whose estimate is outside the band, or a timer. *)
Definition NoValidSound (e : App.Event) : Prop :=
  match e with
  | App.Click _ => False
  | App.AnimationFrame fundamentalFrequency _ =>
      App.isFrequencyInRange fundamentalFrequency = false
  | App.TimeoutElapsed _ => True
  | App.IntervalElapsed => True
  end.

(** The smoother after [n] updates with the same estimate. *)
Fixpoint smoothRepeatedly (n : nat) (estimate smoothed : Q) : Q :=
  match n with
  | O => smoothed
  | S n' => App.smooth estimate (smoothRepeatedly n' estimate smoothed)
  end.

(** A session that is started, hears 100 Hz once at time 0 and then only
    silence, with the timeout given its chance after 5000 ms and later. *)
Definition silenceAfterOneReading : list App.Event :=
  [App.Click true;
   App.AnimationFrame 100 0;
   App.AnimationFrame 0 16;
   App.AnimationFrame 0 5016;
   App.TimeoutElapsed 5016;
   App.AnimationFrame 0 6000;
   App.TimeoutElapsed 6000].

(** No freeze timeout is pending and the pending frame, if any, runs the
    closure that captured [isListening = false]. *)
Definition LoopIsStale (st : App.State) : Prop :=
  App.resetStateTimeoutRef st = None /\ App.animationFrameId st <> Some true.

From Stdlib Require Import Sorted.

(** ** Notions used to state further properties of the detector *)

(** The sum of the products of the elements of two lists, position by
    position, as far as the shorter list goes. *)
Fixpoint dot (xs ys : list Q) : Q :=
  match xs, ys with
  | x :: xs', y :: ys' => x * y + dot xs' ys'
  | _, _ => 0
  end.

(** ** Notions used to state further properties of the session *)

(** What holds of the component in every state it reaches from the initial
    render. *)
Definition SessionInvariant (st : App.State) : Prop :=
  LoopIsStale st
  /\ (0 <= App.smoothedFrequencyRef st /\ App.smoothedFrequencyRef st < 200)
  /\ (forall r, In r (App.frequencyHistoryRef st) ->
                4.4 <= App.freq r /\ App.freq r < 200)
  /\ App.averageFrequency st = App.averageOf (App.frequencyHistoryRef st)
  /\ (App.displayedFrequency st = 0
      \/ (1 < App.displayedFrequency st /\ App.displayedFrequency st < 200)).

(** The JSX expression
    [displayedFrequency > 1 ? displayedFrequency.toFixed(1) : '--']. *)
Definition shownFrequency (st : App.State) : option Q :=
  if Js.ltb 1 (App.displayedFrequency st)
  then Some (App.displayedFrequency st) else None.

(** The class that the effect on [detectedFrequency] passes to
    [setBackgroundColor]. *)
Definition backgroundColorOf (detectedFrequency : Q) : string :=
  if Qle_bool 80 detectedFrequency && Qle_bool detectedFrequency 160
  then "bg-green-600"%string
  else if Js.ltb 160 detectedFrequency && Qle_bool detectedFrequency 180
  then "bg-yellow-600"%string
  else if Js.ltb 180 detectedFrequency
  then "bg-red-600"%string
  else "bg-gray-900"%string.

(** The frames of a list of events come with times that do not decrease,
    starting from [t]. *)
Fixpoint ClockFrom (t : Z) (events : list App.Event) : Prop :=
  match events with
  | [] => True
  | App.AnimationFrame _ now :: rest => (t <= now)%Z /\ ClockFrom now rest
  | _ :: rest => ClockFrom t rest
  end.

(** The readings of a history are in the order of their timestamps. *)
Definition OrderedByTime (history : list App.Reading) : Prop :=
  StronglySorted (fun r1 r2 => (App.timestamp r1 <= App.timestamp r2)%Z) history.

(** The history is ordered and no reading is later than [t]. *)
Definition OrderedUpTo (t : Z) (st : App.State) : Prop :=
  OrderedByTime (App.frequencyHistoryRef st)
  /\ forall r, In r (App.frequencyHistoryRef st) -> (App.timestamp r <= t)%Z.

(** The frame events that carry the given estimates and times. *)
Definition framesOf (frames : list (Q * Z)) : list App.Event :=
  map (fun frame => App.AnimationFrame (fst frame) (snd frame)) frames.

(** The buffer with every sample multiplied by [k]. *)
Definition scale (k : Q) (buffer : list Q) : list Q := map (Qmult k) buffer.

(** Two calls end the same way: both throw, or both return the same
    number. *)
Definition SameOutcome (c1 c2 : Completion) : Prop :=
  match c1, c2 with
  | Return v, Return w => v == w
  | ThrowRangeError, ThrowRangeError => True
  | _, _ => False
  end.

(** The array [c'] holds the values of the array [c] multiplied by [s]. *)
Definition ScaledArray (s : Q) (c c' : list Q) : Prop :=
  length c = length c'
  /\ forall i v v', Js.get c i = Some v -> Js.get c' i = Some v' -> v' == s * v.

(** [T] is the first lag of [lo .. hi - 1] at which the array is largest. *)
Definition FirstMaximum (c : list Q) (lo hi T : Z) : Prop :=
  (lo <= T < hi)%Z
  /\ exists m, Js.get c T = Some m
               /\ (forall i v, (lo <= i < hi)%Z -> Js.get c i = Some v -> v <= m)
               /\ (forall i v, (lo <= i < T)%Z -> Js.get c i = Some v -> v < m).

(** * Properties *)

(** ** Arrays, ranges and comparisons *)

Lemma ltb_lt (x y : Q) : Js.ltb x y = true <-> x < y.
Proof.
  unfold Js.ltb. rewrite Qlt_alt. destruct (x ?= y); split; congruence.
Qed.

Lemma ltb_ge (x y : Q) : Js.ltb x y = false <-> y <= x.
Proof.
  split; intro H.
  - apply Qnot_lt_le. intro L. apply ltb_lt in L. congruence.
  - destruct (Js.ltb x y) eqn:E; trivial.
    apply ltb_lt in E. exfalso. apply (Qlt_not_le _ _ E H).
Qed.

Lemma gt_Some (x y : option Q) :
  Js.gt x y = true <-> exists u v, x = Some u /\ y = Some v /\ v < u.
Proof.
  unfold Js.gt. destruct x as [u|], y as [v|]; split.
  - intro H. apply ltb_lt in H. eauto.
  - intros (u' & v' & E1 & E2 & L). inversion E1; inversion E2; subst.
    now apply ltb_lt.
  - discriminate.
  - intros (? & ? & ? & ? & ?); discriminate.
  - discriminate.
  - intros (? & ? & ? & ? & ?); discriminate.
  - discriminate.
  - intros (? & ? & ? & ? & ?); discriminate.
Qed.

Lemma range_nil (lo hi : Z) : (hi <= lo)%Z -> Js.range lo hi = [].
Proof.
  intro H. unfold Js.range.
  replace (Z.to_nat (hi - lo)) with O by lia. reflexivity.
Qed.

Lemma range_cons (lo hi : Z) :
  (lo < hi)%Z -> Js.range lo hi = lo :: Js.range (lo + 1) hi.
Proof.
  intro H. unfold Js.range.
  replace (Z.to_nat (hi - lo)) with (S (Z.to_nat (hi - (lo + 1)))) by lia.
  cbn [seq map]. f_equal.
  - lia.
  - rewrite <- seq_shift, map_map. apply map_ext. intro k. lia.
Qed.

Lemma in_range (lo hi i : Z) : In i (Js.range lo hi) <-> (lo <= i < hi)%Z.
Proof.
  unfold Js.range. rewrite in_map_iff. split.
  - intros (k & E & Hk). apply in_seq in Hk. lia.
  - intro H. exists (Z.to_nat (i - lo)). split; [lia|].
    apply in_seq. lia.
Qed.

(** Induction along a [for] loop. *)
Lemma range_ind (P : Z -> Z -> Prop) :
  (forall lo hi, (hi <= lo)%Z -> P lo hi) ->
  (forall lo hi, (lo < hi)%Z -> P (lo + 1)%Z hi -> P lo hi) ->
  forall lo hi, P lo hi.
Proof.
  intros Hnil Hcons lo hi.
  remember (Z.to_nat (hi - lo)) as n eqn:En.
  revert lo En. induction n as [|n IH]; intros lo En.
  - apply Hnil. lia.
  - apply Hcons; [lia|]. apply IH. lia.
Qed.

Lemma get_in_bounds (a : list Q) (i : Z) :
  (0 <= i < Z.of_nat (length a))%Z -> exists v, Js.get a i = Some v.
Proof.
  intro H. unfold Js.get.
  destruct (i <? 0)%Z eqn:E; [lia|].
  destruct (nth_error a (Z.to_nat i)) eqn:N; eauto.
  apply nth_error_None in N. lia.
Qed.

Lemma get_out_of_bounds (a : list Q) (i : Z) :
  (i < 0 \/ Z.of_nat (length a) <= i)%Z -> Js.get a i = None.
Proof.
  intro H. unfold Js.get.
  destruct (i <? 0)%Z eqn:E; trivial.
  apply nth_error_None. lia.
Qed.

Lemma get_Some_bounds (a : list Q) (i : Z) (v : Q) :
  Js.get a i = Some v -> (0 <= i < Z.of_nat (length a))%Z.
Proof.
  intro H.
  destruct (Z_lt_dec i 0) as [L|L].
  - rewrite get_out_of_bounds in H by lia. discriminate.
  - destruct (Z_le_dec (Z.of_nat (length a)) i) as [G|G]; [|lia].
    rewrite get_out_of_bounds in H by lia. discriminate.
Qed.

Lemma set_nat_length (a : list Q) (n : nat) (v : Q) :
  length (Js.set_nat a n v) = length a.
Proof.
  revert n. induction a as [|h t IH]; intros [|n]; cbn; auto.
Qed.

Lemma set_length (a : list Q) (i : Z) (v : Q) :
  length (Js.set a i v) = length a.
Proof.
  unfold Js.set. destruct (i <? 0)%Z; auto using set_nat_length.
Qed.

Lemma nth_error_set_nat_same (a : list Q) (n : nat) (v : Q) :
  (n < length a)%nat -> nth_error (Js.set_nat a n v) n = Some v.
Proof.
  revert n. induction a as [|h t IH]; intros [|n] H; cbn in *; try lia; auto.
  apply IH. lia.
Qed.

Lemma nth_error_set_nat_other (a : list Q) (n m : nat) (v : Q) :
  n <> m -> nth_error (Js.set_nat a n v) m = nth_error a m.
Proof.
  revert n m. induction a as [|h t IH]; intros [|n] [|m] H; cbn; auto.
  congruence.
Qed.

Lemma get_set_same (a : list Q) (i : Z) (v : Q) :
  (0 <= i < Z.of_nat (length a))%Z -> Js.get (Js.set a i v) i = Some v.
Proof.
  intro H. unfold Js.get, Js.set.
  destruct (i <? 0)%Z eqn:E; [lia|].
  apply nth_error_set_nat_same. lia.
Qed.

Lemma get_set_other (a : list Q) (i j : Z) (v : Q) :
  i <> j -> Js.get (Js.set a i v) j = Js.get a j.
Proof.
  intro H. unfold Js.get, Js.set.
  destruct (j <? 0)%Z eqn:Ej; trivial.
  destruct (i <? 0)%Z eqn:Ei; trivial.
  apply nth_error_set_nat_other. lia.
Qed.

(** ** The autocorrelation array *)

Lemma accumulateLag_length (buffer c : list Q) (lag : Z) :
  length (accumulateLag buffer c lag) = length c.
Proof.
  unfold accumulateLag.
  generalize (Js.range 0 (Z.of_nat (length buffer) - lag)) as l.
  intro l. revert c. induction l as [|i l IH]; intro c; cbn; trivial.
  rewrite IH. apply set_length.
Qed.

Lemma accumulateLag_other (buffer c : list Q) (lag j : Z) :
  lag <> j -> Js.get (accumulateLag buffer c lag) j = Js.get c j.
Proof.
  intro H. unfold accumulateLag.
  generalize (Js.range 0 (Z.of_nat (length buffer) - lag)) as l.
  intro l. revert c. induction l as [|i l IH]; intro c; cbn; trivial.
  rewrite IH. now apply get_set_other.
Qed.

Lemma accumulateLag_same (buffer c : list Q) (lag : Z) :
  (0 <= lag < Z.of_nat (length c))%Z ->
  Js.get (accumulateLag buffer c lag) lag
  = Some (correlationFrom buffer lag (Js.num (Js.get c lag))).
Proof.
  unfold accumulateLag, correlationFrom.
  generalize (Js.range 0 (Z.of_nat (length buffer) - lag)) as l.
  intro l. revert c. induction l as [|i l IH]; intros c H; cbn.
  - destruct (get_in_bounds c lag H) as [v ->]. reflexivity.
  - rewrite IH by (rewrite set_length; exact H).
    rewrite get_set_same by exact H. reflexivity.
Qed.

Lemma get_repeat0 (n : nat) (j : Z) :
  (0 <= j < Z.of_nat n)%Z -> Js.get (repeat 0 n) j = Some 0.
Proof.
  intro H. unfold Js.get. destruct (j <? 0)%Z eqn:E; [lia|].
  apply nth_error_repeat. lia.
Qed.

Lemma outer_loop_length (buffer : list Q) (lags : list Z) (c : list Q) :
  length (fold_left (accumulateLag buffer) lags c) = length c.
Proof.
  revert c. induction lags as [|lag lags IH]; intro c; cbn; trivial.
  rewrite IH. apply accumulateLag_length.
Qed.

Lemma outer_loop_get (buffer : list Q) (lo hi : Z) :
  forall (c : list Q) (j : Z),
    (0 <= j < Z.of_nat (length c))%Z ->
    Js.get (fold_left (accumulateLag buffer) (Js.range lo hi) c) j
    = if ((lo <=? j) && (j <? hi))%Z
      then Some (correlationFrom buffer j (Js.num (Js.get c j)))
      else Js.get c j.
Proof.
  pattern lo, hi. apply range_ind; clear lo hi.
  - intros lo hi H c j Hj. rewrite range_nil by exact H. cbn.
    destruct ((lo <=? j) && (j <? hi))%Z eqn:E; trivial. lia.
  - intros lo hi H IH c j Hj. rewrite range_cons by exact H. cbn.
    rewrite IH by (rewrite accumulateLag_length; exact Hj).
    destruct (Z.eq_dec lo j) as [->|N].
    + replace ((j + 1 <=? j) && (j <? hi))%Z with false by lia.
      replace ((j <=? j) && (j <? hi))%Z with true by lia.
      apply accumulateLag_same. exact Hj.
    + rewrite accumulateLag_other by exact N.
      replace ((lo + 1 <=? j) && (j <? hi))%Z with ((lo <=? j) && (j <? hi))%Z by lia.
      reflexivity.
Qed.

Lemma correlationsOf_length (buffer : list Q) (sampleRate : Q) :
  length (correlationsOf buffer sampleRate) = Z.to_nat (searchSizeOf sampleRate).
Proof.
  unfold correlationsOf, autocorrelate.
  rewrite outer_loop_length. apply repeat_length.
Qed.

(** The array holds the autocorrelation sums at the lags from [minPeriod] on
    and the fill value [0] below. *)
Lemma correlationsOf_get (buffer : list Q) (sampleRate : Q) (lag : Z) :
  (0 <= lag < searchSizeOf sampleRate)%Z ->
  Js.get (correlationsOf buffer sampleRate) lag
  = Some (if (minPeriodOf sampleRate <=? lag)%Z then correlationAt buffer lag else 0).
Proof.
  intro H. unfold correlationsOf, autocorrelate.
  rewrite outer_loop_get by (rewrite repeat_length; lia).
  rewrite get_repeat0 by lia. cbn [Js.num].
  replace (lag <? searchSizeOf sampleRate)%Z with true by lia.
  rewrite andb_true_r. destruct (minPeriodOf sampleRate <=? lag)%Z; reflexivity.
Qed.

Lemma correlationsOf_defined (buffer : list Q) (sampleRate : Q) (lag : Z) :
  (0 <= lag < searchSizeOf sampleRate)%Z <->
  exists v, Js.get (correlationsOf buffer sampleRate) lag = Some v.
Proof.
  split.
  - intro H. rewrite correlationsOf_get by exact H. eauto.
  - intros [v H]. apply get_Some_bounds in H.
    rewrite correlationsOf_length in H. lia.
Qed.

(** ** The loops over the array *)

Section Loops.

Variable correlations : list Q.

Lemma maxLoop_ge_start (l : list Z) (start : Q) :
  start <= fold_left (maxStep correlations) l start.
Proof.
  revert start. induction l as [|i l IH]; intro start; cbn.
  - apply Qle_refl.
  - eapply Qle_trans; [|apply IH].
    unfold maxStep. destruct (Js.gt _ _) eqn:G.
    + apply gt_Some in G. destruct G as (u & v & -> & E & L).
      inversion E; subst. cbn. now apply Qlt_le_weak.
    + apply Qle_refl.
Qed.

Lemma maxLoop_upper (l : list Z) (start : Q) (i : Z) (v : Q) :
  In i l -> Js.get correlations i = Some v -> v <= fold_left (maxStep correlations) l start.
Proof.
  revert start. induction l as [|k l IH]; intros start I G; cbn.
  - destruct I.
  - destruct I as [E|I]; [|now apply IH].
    subst k. eapply Qle_trans; [|apply maxLoop_ge_start].
    unfold maxStep. rewrite G. cbn.
    destruct (Js.ltb start v) eqn:L.
    + apply Qle_refl.
    + now apply ltb_ge.
Qed.

Lemma maxLoop_attained (l : list Z) (start : Q) :
  fold_left (maxStep correlations) l start = start
  \/ exists i, In i l /\ Js.get correlations i = Some (fold_left (maxStep correlations) l start).
Proof.
  revert start. induction l as [|k l IH]; intro start; cbn.
  - now left.
  - destruct (IH (maxStep correlations start k)) as [E|(i & I & G)].
    + rewrite E. unfold maxStep. destruct (Js.gt _ _) eqn:C.
      * right. exists k. split; [now left|].
        apply gt_Some in C. destruct C as (u & v & -> & _). reflexivity.
      * now left.
    + right. exists i. split; [now right|exact G].
Qed.

Lemma findMaxVal_upper (lo hi i : Z) (v : Q) :
  (lo <= i < hi)%Z -> Js.get correlations i = Some v ->
  v <= findMaxVal correlations lo hi.
Proof.
  intros H G. unfold findMaxVal. apply (maxLoop_upper _ _ i v); trivial.
  now apply in_range.
Qed.

Lemma findMaxVal_attained (lo hi : Z) :
  findMaxVal correlations lo hi = -1
  \/ exists i, (lo <= i < hi)%Z
               /\ Js.get correlations i = Some (findMaxVal correlations lo hi).
Proof.
  unfold findMaxVal.
  destruct (maxLoop_attained (Js.range lo hi) (-1)) as [E|(i & I & G)].
  - now left.
  - right. exists i. split; [now apply in_range|exact G].
Qed.

(** The loop computes the maximum over the search range when that maximum
    is positive. *)
Lemma findMaxVal_is_maximum (lo hi : Z) (M : Q) :
  IsMaximumOver (Js.get correlations) lo hi M -> 0 < M ->
  findMaxVal correlations lo hi == M.
Proof.
  intros [Hub (i & v & Hi & G & E)] Hpos.
  assert (Hle : M <= findMaxVal correlations lo hi).
  { rewrite <- E. now apply (findMaxVal_upper lo hi i v). }
  apply Qle_antisym; trivial.
  destruct (findMaxVal_attained lo hi) as [E1|(k & Hk & Gk)].
  - rewrite E1 in Hle. exfalso.
    apply (Qlt_not_le _ _ Hpos). eapply Qle_trans; [exact Hle|]. discriminate.
  - now apply (Hub k).
Qed.

Lemma findMaxVal_nonpos (lo hi : Z) :
  (forall i v, Js.get correlations i = Some v -> v <= 0) ->
  findMaxVal correlations lo hi <= 0.
Proof.
  intro H. destruct (findMaxVal_attained lo hi) as [E|(k & Hk & Gk)].
  - rewrite E. discriminate.
  - now apply (H k).
Qed.

End Loops.

(** ** Invalid frames *)

Lemma Qceiling_nonneg (x : Q) : (0 <= Qceiling x)%Z <-> -1 < x.
Proof.
  split; intro H.
  - apply Qle_lt_trans with (inject_Z (Qceiling x - 1)); [|apply Qceiling_lt].
    change (-1) with (inject_Z (-1)). rewrite <- Zle_Qle. lia.
  - assert (L : inject_Z (-1) < inject_Z (Qceiling x)).
    { apply Qlt_le_trans with x; [exact H|apply Qle_ceiling]. }
    rewrite <- Zlt_Qlt in L. lia.
Qed.

Lemma Qceiling_le_Z (x : Q) (n : Z) : (Qceiling x <= n)%Z <-> x <= inject_Z n.
Proof.
  split; intro H.
  - eapply Qle_trans; [apply Qle_ceiling|]. now rewrite <- Zle_Qle.
  - rewrite <- (Qceiling_Z n). now apply Qceiling_resp_le.
Qed.

Lemma valid_length_searchSize (sampleRate : Q) :
  Js.valid_length (searchSizeOf sampleRate) = true
  <-> -80 < sampleRate /\ sampleRate <= 343597383600.
Proof.
  unfold Js.valid_length, searchSizeOf, minFreq.
  rewrite andb_true_iff, !Z.leb_le, Qceiling_nonneg, Qceiling_le_Z.
  change (inject_Z 4294967295) with 4294967295.
  unfold Qdiv. change (/ 80) with (1 # 80). lra.
Qed.

Lemma searchSize_nonpos (sampleRate : Q) :
  sampleRate <= 0 -> (searchSizeOf sampleRate <= 0)%Z.
Proof.
  intro H. unfold searchSizeOf, minFreq. apply Qceiling_le_Z.
  change (inject_Z 0) with 0. unfold Qdiv. change (/ 80) with (1 # 80). lra.
Qed.

Lemma correlationAt_nil (lag : Z) : (0 <= lag)%Z -> correlationAt [] lag = 0.
Proof.
  intro H. unfold correlationAt, correlationFrom.
  now rewrite range_nil by (cbn; lia).
Qed.

(** No correlation is positive when the buffer is empty or the array is. *)
Lemma correlations_nonpos (buffer : list Q) (sampleRate : Q) :
  buffer = [] \/ (searchSizeOf sampleRate <= 0)%Z ->
  forall i v, Js.get (correlationsOf buffer sampleRate) i = Some v -> v <= 0.
Proof.
  intros H i v G.
  assert (B : (0 <= i < searchSizeOf sampleRate)%Z).
  { apply (correlationsOf_defined buffer). eauto. }
  destruct H as [->|H]; [|lia].
  rewrite correlationsOf_get in G by exact B.
  rewrite correlationAt_nil in G by lia.
  destruct (minPeriodOf sampleRate <=? i)%Z; inversion G; apply Qle_refl.
Qed.

Lemma no_correlation_returns_0 (buffer : list Q) (sampleRate : Q) :
  buffer = [] \/ (searchSizeOf sampleRate <= 0)%Z ->
  Js.valid_length (searchSizeOf sampleRate) = true ->
  findFundamentalFrequency buffer sampleRate = Return 0.
Proof.
  intros H V. unfold findFundamentalFrequency.
  destruct (rmsBelowThreshold buffer); trivial.
  rewrite V. cbn [negb].
  replace (Qle_bool (maxValOf buffer sampleRate) 0) with true; trivial.
  symmetry. apply Qle_bool_iff. unfold maxValOf.
  apply findMaxVal_nonpos. now apply correlations_nonpos.
Qed.

Lemma allocation_failure (buffer : list Q) (sampleRate : Q) :
  Js.valid_length (searchSizeOf sampleRate) = false ->
  findFundamentalFrequency buffer sampleRate
  = if rmsBelowThreshold buffer then Return 0 else ThrowRangeError.
Proof.
  intro V. unfold findFundamentalFrequency. now rewrite V.
Qed.

(** C1, as the code has it.  [findFundamentalFrequency] does not validate the
    frame.  For an invalid frame (empty buffer, or sample rate not positive)
    whose sample rate lies in (-80, 80 * (2^32 - 1)] the call returns the
    silence value 0.  Below that interval the array allocation
    [new Array(Math.ceil(sampleRate / 80))] throws, unless the RMS gate has
    already returned 0; above it the (empty) buffer passes the gate and the
    allocation throws. *)
Theorem invalid_frame_outcome (buffer : list Q) (sampleRate : Q) :
  InvalidFrame buffer sampleRate ->
  (-80 < sampleRate /\ sampleRate <= 343597383600 ->
   findFundamentalFrequency buffer sampleRate = Return 0)
  /\ (sampleRate <= -80 ->
      findFundamentalFrequency buffer sampleRate
      = if rmsBelowThreshold buffer then Return 0 else ThrowRangeError)
  /\ (343597383600 < sampleRate ->
      findFundamentalFrequency buffer sampleRate = ThrowRangeError).
Proof.
  intro Inv. split; [|split].
  - intro R. apply no_correlation_returns_0.
    + destruct Inv as [E|N]; [now left|right; now apply searchSize_nonpos].
    + now apply valid_length_searchSize.
  - intro L. apply allocation_failure.
    destruct (Js.valid_length (searchSizeOf sampleRate)) eqn:V; trivial.
    apply valid_length_searchSize in V. lra.
  - intro G. destruct Inv as [->|N]; [|lra].
    rewrite allocation_failure; trivial.
    destruct (Js.valid_length (searchSizeOf sampleRate)) eqn:V; trivial.
    apply valid_length_searchSize in V. lra.
Qed.

Lemma invalid_frame_outcome_witness :
  InvalidFrame [] 44100
  /\ findFundamentalFrequency [] 44100 = Return 0.
Proof.
  split.
  - left. reflexivity.
  - apply (invalid_frame_outcome [] 44100).
    + left. reflexivity.
    + split; [reflexivity|discriminate].
Defined.

(** C1, as the specification states it, fails: the empty buffer at 44100 Hz
    is an invalid frame, is not rejected, and yields the silence value. *)
Lemma empty_buffer_not_rejected :
  InvalidFrame [] 44100
  /\ findFundamentalFrequency [] 44100 = Return 0
  /\ ~ Rejected (findFundamentalFrequency [] 44100).
Proof.
  split; [left; reflexivity|]. split; [reflexivity|].
  vm_compute. tauto.
Qed.

(** A sample rate of -400 Hz with a buffer that passes the RMS gate: the
    array length is [Math.ceil(-5) = -5] and the allocation throws. *)
Example negative_sample_rate_throws :
  findFundamentalFrequency [1; 1; 0; 0; 1; 1] (-400) = ThrowRangeError.
Proof. reflexivity. Qed.

(** ** Peak picking *)

Lemma isClearPeak_iff (correlations : list Q) (threshold : Q) (i : Z) :
  isClearPeak correlations threshold i = true
  <-> LocalMaxAbove (Js.get correlations) threshold i.
Proof.
  unfold isClearPeak, LocalMaxAbove. rewrite !andb_true_iff, !gt_Some. split.
  - intros [[(u & v & Eu & Ev & L1) (u2 & b & Eu2 & Eb & L2)] (u3 & a & Eu3 & Ea & L3)].
    assert (E2 : u2 = u) by congruence.
    assert (E3 : u3 = u) by congruence.
    assert (E1 : v = threshold) by congruence.
    subst u2 u3 v. exists b, u, a. auto 10.
  - intros (b & h & a & Eb & Eh & Ea & L1 & L2 & L3).
    split; [split|]; eauto 10.
Qed.

Lemma LocalMaxAbove_threshold (R : Z -> option Q) (s t : Q) (i : Z) :
  s == t -> LocalMaxAbove R s i -> LocalMaxAbove R t i.
Proof.
  intros E (b & h & a & Eb & Eh & Ea & L1 & L2 & L3).
  exists b, h, a. rewrite <- E. auto 10.
Qed.

Lemma find_range_sound (f : Z -> bool) (lo hi i : Z) :
  find f (Js.range lo hi) = Some i -> (lo <= i < hi)%Z /\ f i = true.
Proof.
  intro H. apply find_some in H. now rewrite in_range in H.
Qed.

Lemma firstDipLoop_lower (fuel : nat) (c : list Q) (searchSize start : Z) :
  (start <= firstDipLoop fuel c searchSize start)%Z.
Proof.
  revert start. induction fuel as [|fuel IH]; intro start; cbn; [lia|].
  destruct (_ && _); [|lia]. specialize (IH (start + 1)%Z). lia.
Qed.

(** The bound on the iterations is enough: on exit the loop condition is
    false. *)
Lemma firstDipLoop_exit (fuel : nat) (c : list Q) (searchSize start : Z) :
  (searchSize - 1 - start <= Z.of_nat fuel)%Z ->
  let firstDip := firstDipLoop fuel c searchSize start in
  ((firstDip <? searchSize - 1)%Z
   && Js.gt (Js.get c firstDip) (Js.get c (firstDip + 1))) = false.
Proof.
  revert start. induction fuel as [|fuel IH]; intros start H; cbn.
  - replace (start <? searchSize - 1)%Z with false by lia. reflexivity.
  - destruct ((start <? searchSize - 1)%Z
              && Js.gt (Js.get c start) (Js.get c (start + 1))) eqn:E.
    + apply IH. lia.
    + exact E.
Qed.

Lemma findFirstDip_exit (c : list Q) (searchSize : Z) :
  let firstDip := findFirstDip c searchSize in
  (0 <= firstDip)%Z
  /\ ((firstDip <? searchSize - 1)%Z
      && Js.gt (Js.get c firstDip) (Js.get c (firstDip + 1))) = false.
Proof.
  unfold findFirstDip. split.
  - apply firstDipLoop_lower.
  - apply firstDipLoop_exit. lia.
Qed.

Lemma searchStart_nonneg (buffer : list Q) (sampleRate : Q) :
  (0 <= searchStartOf buffer sampleRate)%Z.
Proof.
  unfold searchStartOf.
  pose proof (firstDipLoop_lower (Z.to_nat (searchSizeOf sampleRate))
                (correlationsOf buffer sampleRate) (searchSizeOf sampleRate) 0).
  unfold findFirstDip. lia.
Qed.

(** The scan compares the first lag of the search range with the array
    element below it.  When the search starts at [minPeriod], that element is
    the fill value 0 and not the autocorrelation at [minPeriod - 1]: a
    positive autocorrelation at [minPeriod] that exceeds the threshold and
    the autocorrelation at [minPeriod + 1] is taken for a peak, whatever the
    autocorrelation at [minPeriod - 1] is. *)
Lemma search_start_passes_for_a_peak (buffer : list Q) (sampleRate : Q) :
  (1 <= minPeriodOf sampleRate)%Z ->
  (minPeriodOf sampleRate + 1 < searchSizeOf sampleRate - 1)%Z ->
  searchStartOf buffer sampleRate = minPeriodOf sampleRate ->
  0 < correlationAt buffer (minPeriodOf sampleRate) ->
  maxValOf buffer sampleRate * 0.9 < correlationAt buffer (minPeriodOf sampleRate) ->
  correlationAt buffer (minPeriodOf sampleRate + 1)
  < correlationAt buffer (minPeriodOf sampleRate) ->
  periodOf buffer sampleRate = minPeriodOf sampleRate.
Proof.
  intros M S Start Pos Clear Right.
  unfold periodOf, choosePeriod, firstClearPeak. rewrite Start.
  rewrite range_cons by lia. cbn [find].
  assert (P : isClearPeak (correlationsOf buffer sampleRate)
                (maxValOf buffer sampleRate * 0.9) (minPeriodOf sampleRate) = true).
  { unfold isClearPeak. rewrite !correlationsOf_get by lia.
    rewrite Z.leb_refl.
    replace (minPeriodOf sampleRate <=? minPeriodOf sampleRate - 1)%Z
      with false by lia.
    replace (minPeriodOf sampleRate <=? minPeriodOf sampleRate + 1)%Z
      with true by lia.
    cbn [Js.gt]. rewrite !andb_true_iff. repeat split; now apply ltb_lt. }
  rewrite P.
  replace (minPeriodOf sampleRate =? -1)%Z with false by lia.
  reflexivity.
Qed.

(** C2, on the code.  For [fallingSlope] at 480 Hz ([minPeriod = 2],
    [searchSize = 6]) the autocorrelation is 1, 11/16, 1/2, 3/4, 1/2 at the
    lags 1 to 5: lag 2 lies on the falling slope, and the first local maximum
    of the search range above 0.9 times the maximum 3/4 is lag 4.  The array
    holds the fill value 0 at lag 1, the walk to the first dip stays at lag
    0, and the scan takes lag 2 for a peak: the call returns 210 where lag 4
    gives 120. *)
Theorem falling_slope_is_taken_for_a_peak :
  rmsBelowThreshold fallingSlope = false
  /\ correlationAt fallingSlope 1 == 1
  /\ correlationAt fallingSlope 2 == 11 # 16
  /\ correlationAt fallingSlope 3 == 1 # 2
  /\ correlationAt fallingSlope 4 == 3 # 4
  /\ correlationAt fallingSlope 5 == 1 # 2
  /\ Js.get (correlationsOf fallingSlope 480) 1 = Some 0
  /\ findFirstDip (correlationsOf fallingSlope 480) (searchSizeOf 480) = 0%Z
  /\ searchStartOf fallingSlope 480 = 2%Z
  /\ maxValOf fallingSlope 480 == 3 # 4
  /\ claimedPeriod fallingSlope 480 = Some 4%Z
  /\ periodOf fallingSlope 480 = 2%Z
  /\ Returns (findFundamentalFrequency fallingSlope 480) 210
  /\ frequencyOfPeriod (correlationsOf fallingSlope 480) (searchSizeOf 480) 480 4
     == 120.
Proof.
  repeat (split; [reflexivity|]).
  split; [|reflexivity].
  eexists. split; [vm_compute; reflexivity|reflexivity].
Qed.

(** In [twoPeaks] the later peak is the taller one and the global maximum;
    the selected period is the lag of the first peak. *)
Example two_peaks_first_wins :
  Js.num (Js.get (correlationsOf twoPeaks 480) 2) == 5 # 2
  /\ Js.num (Js.get (correlationsOf twoPeaks 480) 4) == 11 # 4
  /\ maxValOf twoPeaks 480 == 11 # 4
  /\ fallbackMaxPos (correlationsOf twoPeaks 480) (searchStartOf twoPeaks 480)
                    (searchSizeOf 480) = 4%Z
  /\ periodOf twoPeaks 480 = 2%Z.
Proof. repeat split. Qed.

(** ** Parabolic interpolation *)

Lemma or0_value (v : Q) : Js.or0 (Some v) == v.
Proof.
  cbn. destruct (Qeq_bool v 0) eqn:E; [|reflexivity].
  apply Qeq_bool_eq in E. now symmetry.
Qed.

Lemma fallbackMaxPos_range (c : list Q) (lo hi : Z) :
  fallbackMaxPos c lo hi = (-1)%Z \/ (lo <= fallbackMaxPos c lo hi < hi)%Z.
Proof.
  unfold fallbackMaxPos.
  assert (G : forall l acc,
             snd acc = (-1)%Z \/ (lo <= snd acc < hi)%Z ->
             (forall i, In i l -> (lo <= i < hi)%Z) ->
             let r := fold_left
                        (fun '(fallbackMaxVal, maxPos) i =>
                           if Js.gt (Js.get c i) (Some fallbackMaxVal)
                           then (Js.num (Js.get c i), i)
                           else (fallbackMaxVal, maxPos)) l acc in
             snd r = (-1)%Z \/ (lo <= snd r < hi)%Z).
  { induction l as [|i l IH]; intros [m p] Hacc Hl; cbn; trivial.
    apply IH.
    - destruct (Js.gt (Js.get c i) (Some m)); cbn; trivial.
      right. apply Hl. now left.
    - intros k Hk. apply Hl. now right. }
  apply G.
  - now left.
  - intros i Hi. now apply in_range.
Qed.

(** The chosen lag lies in the array, or is -1. *)
Lemma choosePeriod_range (c : list Q) (threshold : Q) (lo hi : Z) :
  choosePeriod c threshold lo hi = (-1)%Z
  \/ (lo <= choosePeriod c threshold lo hi < hi)%Z.
Proof.
  unfold choosePeriod, firstClearPeak.
  destruct (find (isClearPeak c threshold) (Js.range lo (hi - 1))) as [i|] eqn:F.
  - apply find_range_sound in F.
    destruct (i =? -1)%Z eqn:E; [apply fallbackMaxPos_range|]. right. lia.
  - cbn. apply fallbackMaxPos_range.
Qed.

Lemma frequencyOfPeriod_edge (c : list Q) (searchSize : Z) (sampleRate : Q) (T0 : Z) :
  (0 < T0)%Z -> (searchSize - 1 <= T0)%Z ->
  frequencyOfPeriod c searchSize sampleRate T0 = sampleRate / inject_Z T0.
Proof.
  intros P E. unfold frequencyOfPeriod.
  replace (T0 <=? 0)%Z with false by lia.
  replace (T0 <? searchSize - 1)%Z with false by lia.
  now rewrite andb_false_r.
Qed.

Lemma frequencyOfPeriod_interior (c : list Q) (searchSize : Z) (sampleRate : Q)
      (T0 : Z) (ym y0 yp : Q) :
  (0 < T0 < searchSize - 1)%Z ->
  Js.get c (T0 - 1) = Some ym -> Js.get c T0 = Some y0 -> Js.get c (T0 + 1) = Some yp ->
  let denominator := 2 * (2 * y0 - yp - ym) in
  let corrected := inject_Z T0 + (yp - ym) / denominator in
  (denominator == 0 ->
   frequencyOfPeriod c searchSize sampleRate T0 == sampleRate / inject_Z T0)
  /\ (~ denominator == 0 -> corrected <= 0 ->
      frequencyOfPeriod c searchSize sampleRate T0 == 0)
  /\ (~ denominator == 0 -> 0 < corrected ->
      frequencyOfPeriod c searchSize sampleRate T0 == sampleRate / corrected).
Proof.
  intros B Em E0 Ep denominator corrected.
  unfold frequencyOfPeriod.
  replace (T0 <=? 0)%Z with false by lia.
  replace ((0 <? T0)%Z && (T0 <? searchSize - 1)%Z) with true by lia.
  rewrite Em, E0, Ep. cbn [Js.num].
  set (ym' := Js.or0 (Some ym)). set (yp' := Js.or0 (Some yp)).
  assert (Hm : ym' == ym) by apply or0_value.
  assert (Hp : yp' == yp) by apply or0_value.
  assert (Hd : 2 * (2 * y0 - yp' - ym') == denominator).
  { unfold denominator. now rewrite Hm, Hp. }
  assert (Hc : inject_Z T0 + (yp' - ym') / (2 * (2 * y0 - yp' - ym')) == corrected).
  { unfold corrected. now rewrite Hd, Hm, Hp. }
  rewrite (Qeqb_comp _ _ Hd 0 0 (Qeq_refl 0)).
  rewrite (Qleb_comp _ _ Hc 0 0 (Qeq_refl 0)).
  destruct (Qeq_bool denominator 0) eqn:D; cbn [negb].
  - apply Qeq_bool_eq in D. split; [reflexivity|]. split; intro N; contradiction.
  - apply Qeq_bool_neq in D. split; [intro N; contradiction|].
    destruct (Qle_bool corrected 0) eqn:L.
    + apply Qle_bool_iff in L. split; [reflexivity|].
      intros _ G. exfalso. apply (Qlt_not_le _ _ G L).
    + split.
      * intros _ G. apply Qle_bool_iff in G. congruence.
      * intros _ _. now rewrite Hc.
Qed.

(** C3, as the code has it.  Let the buffer pass the RMS gate, the array be
    allocated and the maximum correlation be positive, and let [T0] be the
    chosen lag; it is at most the last index [searchSize - 1].  If [T0 <= 0]
    the call returns 0.  If [0 < T0 < searchSize - 1], both neighbours exist
    in the array and the result follows the parabola through them: with
    [d = 2 (2 R[T0] - R[T0+1] - R[T0-1])], the call returns [sampleRate / T0]
    when [d = 0], and otherwise, with [T = T0 + (R[T0+1] - R[T0-1]) / d], it
    returns 0 when [T <= 0] and [sampleRate / T] when [T > 0].  If [T0 > 0] is
    the last index, the call returns [sampleRate / T0], not refined. *)
Theorem interpolation_of_chosen_lag (buffer : list Q) (sampleRate : Q) :
  let R := Js.get (correlationsOf buffer sampleRate) in
  let searchSize := searchSizeOf sampleRate in
  let T0 := periodOf buffer sampleRate in
  let result := findFundamentalFrequency buffer sampleRate in
  rmsBelowThreshold buffer = false ->
  Js.valid_length searchSize = true ->
  0 < maxValOf buffer sampleRate ->
  (T0 <= searchSize - 1)%Z
  /\ ((T0 <= 0)%Z -> result = Return 0)
  /\ ((0 < T0 < searchSize - 1)%Z ->
      exists ym y0 yp,
        R (T0 - 1)%Z = Some ym /\ R T0 = Some y0 /\ R (T0 + 1)%Z = Some yp
        /\ let d := 2 * (2 * y0 - yp - ym) in
           let T := inject_Z T0 + (yp - ym) / d in
           (d == 0 -> Returns result (sampleRate / inject_Z T0))
           /\ (~ d == 0 -> T <= 0 -> Returns result 0)
           /\ (~ d == 0 -> 0 < T -> Returns result (sampleRate / T)))
  /\ ((0 < T0)%Z -> T0 = (searchSize - 1)%Z ->
      Returns result (sampleRate / inject_Z T0)).
Proof.
  intros R searchSize T0 result Gate Alloc Mpos.
  assert (Eres : result = Return (frequencyOfPeriod (correlationsOf buffer sampleRate)
                                    searchSize sampleRate T0)).
  { unfold result, findFundamentalFrequency. rewrite Gate.
    fold searchSize. rewrite Alloc. cbn [negb].
    destruct (Qle_bool (maxValOf buffer sampleRate) 0) eqn:E; trivial.
    apply Qle_bool_iff in E. exfalso. apply (Qlt_not_le _ _ Mpos E). }
  split; [|split; [|split]].
  - assert (V : (0 <= searchSize)%Z).
    { unfold Js.valid_length in Alloc. lia. }
    destruct (choosePeriod_range (correlationsOf buffer sampleRate)
                (maxValOf buffer sampleRate * 0.9)
                (searchStartOf buffer sampleRate) searchSize) as [E|B];
      subst T0 searchSize; unfold periodOf in *; lia.
  - intro Neg. rewrite Eres. unfold frequencyOfPeriod.
    now replace (T0 <=? 0)%Z with true by lia.
  - intro Inside.
    destruct (proj1 (correlationsOf_defined buffer sampleRate (T0 - 1)))
      as [ym Em]; [fold searchSize; lia|].
    destruct (proj1 (correlationsOf_defined buffer sampleRate T0))
      as [y0 E0]; [fold searchSize; lia|].
    destruct (proj1 (correlationsOf_defined buffer sampleRate (T0 + 1)))
      as [yp Ep]; [fold searchSize; lia|].
    exists ym, y0, yp. repeat (split; [assumption|]).
    destruct (frequencyOfPeriod_interior (correlationsOf buffer sampleRate)
                searchSize sampleRate T0 ym y0 yp) as (A & B & C);
      trivial.
    cbv zeta. rewrite Eres. unfold Returns. split; [|split]; eauto.
  - intros Tpos Last. rewrite Eres. unfold Returns.
    rewrite frequencyOfPeriod_edge by lia. eexists. split; reflexivity.
Qed.

Lemma interpolation_of_chosen_lag_witness :
  (0 < periodOf twoPeaks 480 < searchSizeOf 480 - 1)%Z
  /\ Returns (findFundamentalFrequency twoPeaks 480) (7680 # 29).
Proof.
  split; [split; reflexivity|].
  destruct (interpolation_of_chosen_lag twoPeaks 480) as (_ & _ & Interior & _);
    try reflexivity.
  destruct Interior as (ym & y0 & yp & Em & E0 & Ep & _ & _ & Pos);
    [split; reflexivity|].
  vm_compute in Em, E0, Ep.
  injection Em as <-. injection E0 as <-. injection Ep as <-.
  destruct Pos as (v & E & Q); [discriminate|reflexivity|].
  exists v. split; [exact E|]. rewrite Q. reflexivity.
Defined.

(** C3, as the specification states it, fails at the upper edge of the array.
    For [risingCorrelation] at 400 Hz the correlations are [0, 0, 0, 1, 2],
    the chosen lag is the last index 4 with [R[4] = 2 > 0], the code returns
    [400 / 4] and the refinement with the missing neighbour counted as 0
    gives [2400 / 23]. *)
Lemma last_lag_is_not_refined :
  rmsBelowThreshold risingCorrelation = false
  /\ periodOf risingCorrelation 400 = 4%Z
  /\ Js.get (correlationsOf risingCorrelation 400) 4 = Some 2
  /\ Js.get (correlationsOf risingCorrelation 400) 5 = None
  /\ Returns (findFundamentalFrequency risingCorrelation 400) 100
  /\ claimedFrequency (Js.get (correlationsOf risingCorrelation 400)) 400 4 == 2400 # 23
  /\ ~ Returns (findFundamentalFrequency risingCorrelation 400)
         (claimedFrequency (Js.get (correlationsOf risingCorrelation 400)) 400
            (periodOf risingCorrelation 400)).
Proof.
  split; [reflexivity|]. split; [reflexivity|].
  split; [reflexivity|]. split; [reflexivity|].
  split; [eexists; split; [vm_compute; reflexivity|reflexivity]|].
  split; [reflexivity|].
  intros (v & E & Q). vm_compute in E. injection E as <-.
  vm_compute in Q. discriminate.
Qed.

(** ** The session: one tick *)

Section Tick.

Import App.

Variables (captured : bool) (fundamentalFrequency : Q) (now : Z) (st : State).

Lemma tick_valid :
  isFrequencyInRange fundamentalFrequency = true ->
  let newSmoothedFrequency := smooth fundamentalFrequency (smoothedFrequencyRef st) in
  let history :=
    filter (fun reading => (now - timestamp reading <? 3000)%Z)
           (frequencyHistoryRef st ++ [mkReading newSmoothedFrequency now]) in
  processAudio captured fundamentalFrequency now st
  = mkState (isListening st) newSmoothedFrequency (displayedFrequency st)
                (averageOf history) newSmoothedFrequency history now None
                (Some captured).
Proof.
  intro V. unfold processAudio. rewrite V. cbn -[filter averageOf].
  replace (now - now >? PAUSE_THRESHOLD_MS)%Z with false; [reflexivity|].
  unfold PAUSE_THRESHOLD_MS. lia.
Qed.

Lemma tick_invalid :
  isFrequencyInRange fundamentalFrequency = false ->
  let history :=
    if (now - lastSoundTimestampRef st >? PAUSE_THRESHOLD_MS)%Z then []
    else filter (fun reading => (now - timestamp reading <? 3000)%Z)
                (frequencyHistoryRef st) in
  processAudio captured fundamentalFrequency now st
  = mkState (isListening st) (detectedFrequency st) (displayedFrequency st)
                (averageOf history) (smoothedFrequencyRef st) history
                (lastSoundTimestampRef st)
                (match resetStateTimeoutRef st with
                 | Some due => Some due
                 | None => if captured then Some (now + FREEZE_ON_SILENCE_MS)%Z
                           else None
                 end)
                (Some captured).
Proof.
  intro V. unfold processAudio. rewrite V.
  destruct (resetStateTimeoutRef st) as [due|] eqn:E; [|destruct captured];
    cbn -[filter averageOf]; rewrite ?E; reflexivity.
Qed.

(** Which readings are in the history after a tick. *)
Lemma tick_history (r : Reading) :
  In r (frequencyHistoryRef (processAudio captured fundamentalFrequency now st)) <->
  (now - timestamp r < 3000)%Z
  /\ (if isFrequencyInRange fundamentalFrequency
      then In r (frequencyHistoryRef st)
           \/ r = mkReading (smooth fundamentalFrequency (smoothedFrequencyRef st)) now
      else In r (frequencyHistoryRef st)
           /\ (now - lastSoundTimestampRef st <= PAUSE_THRESHOLD_MS)%Z).
Proof.
  destruct (isFrequencyInRange fundamentalFrequency) eqn:V.
  - rewrite (tick_valid V). cbn [frequencyHistoryRef].
    rewrite filter_In, in_app_iff, Z.ltb_lt. cbn [In]. intuition.
  - rewrite (tick_invalid V). cbn [frequencyHistoryRef].
    destruct (now - lastSoundTimestampRef st >? PAUSE_THRESHOLD_MS)%Z eqn:P.
    + cbn [In]. split; [tauto|]. intros (_ & _ & L). lia.
    + rewrite filter_In, Z.ltb_lt. intuition. lia.
Qed.

End Tick.

(** ** The session: scenarios *)

Section Scenarios.

Import App.

Lemma quiet_event_keeps_last_sound (st : State) (e : Event) :
  NoValidSound e ->
  lastSoundTimestampRef (handle st e) = lastSoundTimestampRef st
  /\ (animationFrameId st <> None -> animationFrameId (handle st e) <> None).
Proof.
  destruct e as [granted|f now|now|]; cbn [NoValidSound handle]; intro Q.
  - contradiction.
  - destruct (animationFrameId st) as [c|] eqn:A.
    + rewrite (tick_invalid c f now st Q). cbn. split; [reflexivity|discriminate].
    + split; [reflexivity|congruence].
  - destruct (resetStateTimeoutRef st) as [due|]; [destruct (due <=? now)%Z|];
      cbn; auto.
  - unfold displayInterval.
    destruct (isListening st); [destruct (Js.ltb 1 (smoothedFrequencyRef st))|];
      cbn; auto.
Qed.

Lemma quiet_events_keep_last_sound (events : list Event) (st : State) :
  Forall NoValidSound events ->
  animationFrameId st <> None ->
  lastSoundTimestampRef (run st events) = lastSoundTimestampRef st
  /\ animationFrameId (run st events) <> None.
Proof.
  revert st. induction events as [|e events IH]; intros st Q A; cbn.
  - auto.
  - inversion Q as [|? ? Qe Qrest]; subst.
    destruct (quiet_event_keeps_last_sound st e Qe) as [L F].
    destruct (IH (handle st e) Qrest (F A)) as [L' F'].
    fold (run (handle st e) events). rewrite L', L. auto.
Qed.

(** C4.  After a start, valid estimates at [t0], [t0 + 200] and [t0 + 400]
    leave three readings in the history.  Whatever frames without a valid
    estimate and timer events follow, a frame without a valid estimate at
    [t0 + 1000] (600 ms after the last sound) leaves the history empty and
    the average at the value that is shown as the placeholder. *)
Theorem pause_reset (t0 : Z) (f0 f1 f2 g : Q) (quiet : list Event) :
  isFrequencyInRange f0 = true ->
  isFrequencyInRange f1 = true ->
  isFrequencyInRange f2 = true ->
  isFrequencyInRange g = false ->
  Forall NoValidSound quiet ->
  let fed :=
    run initial [Click true; AnimationFrame f0 t0; AnimationFrame f1 (t0 + 200);
                 AnimationFrame f2 (t0 + 400)] in
  let paused := run fed (quiet ++ [AnimationFrame g (t0 + 1000)]) in
  length (frequencyHistoryRef fed) = 3%nat
  /\ lastSoundTimestampRef fed = (t0 + 400)%Z
  /\ frequencyHistoryRef paused = []
  /\ averageFrequency paused = 0
  /\ shownAverage paused = None.
Proof.
  intros V0 V1 V2 Vg Q fed paused.
  assert (Efed : length (frequencyHistoryRef fed) = 3%nat
                 /\ lastSoundTimestampRef fed = (t0 + 400)%Z
                 /\ animationFrameId fed <> None).
  { unfold fed, run. cbn [fold_left handle handleToggleListening initial
                          isListening startListening animationFrameId].
    rewrite (tick_valid false f0 t0 _ V0).
    cbn [animationFrameId].
    rewrite (tick_valid false f1 (t0 + 200) _ V1).
    cbn [animationFrameId].
    rewrite (tick_valid false f2 (t0 + 400) _ V2).
    cbn [frequencyHistoryRef lastSoundTimestampRef animationFrameId
         smoothedFrequencyRef app filter timestamp].
    replace (t0 - t0 <? 3000)%Z with true by lia.
    cbn [app filter timestamp].
    replace (t0 + 200 - t0 <? 3000)%Z with true by lia.
    replace (t0 + 200 - (t0 + 200) <? 3000)%Z with true by lia.
    cbn [app filter timestamp].
    replace (t0 + 400 - t0 <? 3000)%Z with true by lia.
    replace (t0 + 400 - (t0 + 200) <? 3000)%Z with true by lia.
    replace (t0 + 400 - (t0 + 400) <? 3000)%Z with true by lia.
    repeat split. discriminate. }
  destruct Efed as (Len & Last & Frame).
  split; [exact Len|]. split; [exact Last|].
  destruct (quiet_events_keep_last_sound quiet fed Q Frame) as [L F].
  unfold paused, run. rewrite fold_left_app. fold (run fed quiet).
  cbn [fold_left handle].
  destruct (animationFrameId (run fed quiet)) as [c|]; [|congruence].
  rewrite (tick_invalid c g (t0 + 1000) _ Vg).
  rewrite L, Last.
  replace (t0 + 1000 - (t0 + 400) >? PAUSE_THRESHOLD_MS)%Z with true
    by (unfold PAUSE_THRESHOLD_MS; lia).
  repeat split.
Qed.

Lemma pause_reset_witness :
  let fed :=
    run initial [Click true; AnimationFrame 100 0; AnimationFrame 110 200;
                 AnimationFrame 120 400] in
  let paused :=
    run fed ([AnimationFrame 0 500; IntervalElapsed] ++ [AnimationFrame 0 1000]) in
  length (frequencyHistoryRef fed) = 3%nat
  /\ lastSoundTimestampRef fed = 400%Z
  /\ frequencyHistoryRef paused = []
  /\ averageFrequency paused = 0
  /\ shownAverage paused = None.
Proof.
  apply (pause_reset 0 100 110 120 0 [AnimationFrame 0 500; IntervalElapsed]);
    try reflexivity.
  repeat constructor.
Defined.

(** C6.  After every tick at time [now], every reading that remains in the
    history is less than 3000 ms old.  In particular, with valid estimates at
    [t0] and [t0 + 2900], both readings are in the history after a tick at
    [t0 + 2999], and after the next tick at [t0 + 3001] the reading of
    [t0 + 2900] is still there and no reading stamped [t0] is. *)
Theorem history_window (captured : bool) (st : State) :
  (forall f now r,
      In r (frequencyHistoryRef (processAudio captured f now st)) ->
      (now - timestamp r < 3000)%Z)
  /\ (forall t0 f0 f1 g g',
         isFrequencyInRange f0 = true ->
         isFrequencyInRange f1 = true ->
         let s1 := processAudio captured f0 t0 st in
         let s2 := processAudio captured f1 (t0 + 2900) s1 in
         let s3 := processAudio captured g (t0 + 2999) s2 in
         let s4 := processAudio captured g' (t0 + 3001) s3 in
         let r0 := mkReading (smoothedFrequencyRef s1) t0 in
         let r1 := mkReading (smoothedFrequencyRef s2) (t0 + 2900) in
         In r0 (frequencyHistoryRef s1)
         /\ In r0 (frequencyHistoryRef s3) /\ In r1 (frequencyHistoryRef s3)
         /\ In r1 (frequencyHistoryRef s4)
         /\ (forall r, In r (frequencyHistoryRef s4) -> timestamp r <> t0)).
Proof.
  split.
  - intros f now r I. now apply tick_history in I.
  - intros t0 f0 f1 g g' V0 V1 s1 s2 s3 s4 r0 r1.
    assert (E1 : smoothedFrequencyRef s1 = smooth f0 (smoothedFrequencyRef st)).
    { unfold s1. now rewrite (tick_valid captured f0 t0 st V0). }
    assert (E2 : smoothedFrequencyRef s2 = smooth f1 (smoothedFrequencyRef s1)).
    { unfold s2. now rewrite (tick_valid captured f1 (t0 + 2900) s1 V1). }
    assert (L2 : lastSoundTimestampRef s2 = (t0 + 2900)%Z).
    { unfold s2. now rewrite (tick_valid captured f1 (t0 + 2900) s1 V1). }
    assert (L3 : (t0 + 2900 <= lastSoundTimestampRef s3)%Z).
    { unfold s3. destruct (isFrequencyInRange g) eqn:Vg.
      - rewrite (tick_valid captured g (t0 + 2999) s2 Vg).
        cbn [lastSoundTimestampRef]. lia.
      - rewrite (tick_invalid captured g (t0 + 2999) s2 Vg).
        cbn [lastSoundTimestampRef]. lia. }
    assert (L3' : (lastSoundTimestampRef s3 <= t0 + 2999)%Z).
    { unfold s3. destruct (isFrequencyInRange g) eqn:Vg.
      - rewrite (tick_valid captured g (t0 + 2999) s2 Vg).
        cbn [lastSoundTimestampRef]. lia.
      - rewrite (tick_invalid captured g (t0 + 2999) s2 Vg).
        cbn [lastSoundTimestampRef]. lia. }
    assert (I1 : In r0 (frequencyHistoryRef s1)).
    { apply tick_history. rewrite V0. cbn [timestamp r0]. split; [lia|].
      right. unfold r0. now rewrite E1. }
    assert (I2 : In r0 (frequencyHistoryRef s2) /\ In r1 (frequencyHistoryRef s2)).
    { split; apply tick_history; rewrite V1; cbn [timestamp r0 r1];
        (split; [lia|]); [now left|right]. unfold r1. now rewrite E2. }
    assert (I3 : In r0 (frequencyHistoryRef s3) /\ In r1 (frequencyHistoryRef s3)).
    { unfold PAUSE_THRESHOLD_MS in *.
      split; apply tick_history; cbn [timestamp r0 r1]; (split; [lia|]);
        destruct (isFrequencyInRange g); rewrite ?L2;
        unfold PAUSE_THRESHOLD_MS; intuition lia. }
    split; [exact I1|]. split; [apply I3|]. split; [apply I3|]. split.
    + apply tick_history. cbn [timestamp r1]. split; [lia|].
      destruct (isFrequencyInRange g'); unfold PAUSE_THRESHOLD_MS;
        intuition lia.
    + intros r I. apply tick_history in I. lia.
Qed.

Lemma history_window_witness :
  let s1 := processAudio false 100 0 initial in
  let s2 := processAudio false 100 2900 s1 in
  let s3 := processAudio false 0 2999 s2 in
  let s4 := processAudio false 0 3001 s3 in
  let r0 := mkReading (smoothedFrequencyRef s1) 0 in
  let r1 := mkReading (smoothedFrequencyRef s2) 2900 in
  In r0 (frequencyHistoryRef s1)
  /\ In r0 (frequencyHistoryRef s3) /\ In r1 (frequencyHistoryRef s3)
  /\ In r1 (frequencyHistoryRef s4)
  /\ (forall r, In r (frequencyHistoryRef s4) -> timestamp r <> 0%Z).
Proof.
  apply (proj2 (history_window false initial) 0%Z 100 100 0 0); reflexivity.
Defined.

End Scenarios.

(** ** The smoother *)

Section Smoother.

Import App.

Lemma smooth_error (f s : Q) : smooth f s - f == (189 # 200) * (s - f).
Proof. unfold smooth, SMOOTHING_ALPHA. ring. Qed.

Lemma smooth_from_zero (f s : Q) : s == 0 -> smooth f s == 0.055 * f.
Proof. intro E. unfold smooth, SMOOTHING_ALPHA. rewrite E. ring. Qed.

Lemma isFrequencyInRange_iff (f : Q) :
  isFrequencyInRange f = true <-> 80 <= f /\ f <= 200.
Proof.
  unfold isFrequencyInRange. now rewrite andb_true_iff, !Qle_bool_iff.
Qed.

Lemma total_from (history : list Reading) (start : Q) :
  fold_left (fun sum r => sum + freq r) history start == start + total history.
Proof.
  unfold total. revert start.
  induction history as [|r history IH]; intro start; cbn.
  - ring.
  - rewrite IH, (IH (0 + freq r)). ring.
Qed.

(** C10.  Each reset (start, stop, freeze timeout) leaves the smoother at 0.
    From a smoother at 0, a tick with a valid estimate [f] in [80, 200] sets
    the smoother (and the instant value) to [0.055 * f], which lies in
    [4.4, 11], below the band; the reading with that value and the time of
    the tick is the last element of the history, and the average that the
    tick publishes is the mean of that history, so it includes that reading;
    when the history was empty the average is that value. *)
Theorem first_estimate_after_reset
        (captured : bool) (f : Q) (now : Z) (st : State) :
  smoothedFrequencyRef st == 0 ->
  isFrequencyInRange f = true ->
  let st' := processAudio captured f now st in
  let v := smoothedFrequencyRef st' in
  (forall c g s, smoothedFrequencyRef (startListening c g s) = 0
                 /\ smoothedFrequencyRef (stopListening s) = 0
                 /\ smoothedFrequencyRef (resetStateTimeout s) = 0)
  /\ v == 0.055 * f
  /\ 4.4 <= v /\ v <= 11 /\ isFrequencyInRange v = false
  /\ detectedFrequency st' = v
  /\ (exists older, frequencyHistoryRef st' = older ++ [mkReading v now])
  /\ averageFrequency st'
     = total (frequencyHistoryRef st')
       / inject_Z (Z.of_nat (length (frequencyHistoryRef st')))
  /\ (frequencyHistoryRef st = [] -> averageFrequency st' == v).
Proof.
  intros Z V st' v.
  assert (E : st' = processAudio captured f now st) by reflexivity.
  rewrite (tick_valid captured f now st V) in E.
  assert (Ev : v = smooth f (smoothedFrequencyRef st)).
  { unfold v. now rewrite E. }
  assert (Hv : v == 0.055 * f).
  { rewrite Ev. now apply smooth_from_zero. }
  apply isFrequencyInRange_iff in V. destruct V as [Lo Hi].
  split.
  { intros c g s. destruct g; repeat split. }
  split; [exact Hv|].
  split; [rewrite Hv; lra|]. split; [rewrite Hv; lra|].
  split.
  { destruct (isFrequencyInRange v) eqn:B; trivial.
    apply isFrequencyInRange_iff in B. rewrite Hv in B. lra. }
  split; [now rewrite E|].
  assert (Hist : frequencyHistoryRef st'
                 = filter (fun reading => (now - timestamp reading <? 3000)%Z)
                          (frequencyHistoryRef st) ++ [mkReading v now]).
  { rewrite E. cbn [frequencyHistoryRef]. rewrite filter_app. cbn [filter timestamp].
    replace (now - now <? 3000)%Z with true by lia. now rewrite Ev. }
  split; [eauto|]. split.
  - change (averageFrequency st') with (averageOf (frequencyHistoryRef st')).
    rewrite Hist. unfold averageOf.
    destruct (filter _ (frequencyHistoryRef st) ++ [mkReading v now]); reflexivity.
  - intro Empty.
    change (averageFrequency st') with (averageOf (frequencyHistoryRef st')).
    rewrite Hist, Empty. cbn. field.
Qed.

Lemma first_estimate_after_reset_witness :
  let st' := processAudio false 100 0 (startListening false true initial) in
  smoothedFrequencyRef st' == 0.055 * 100
  /\ averageFrequency st' == smoothedFrequencyRef st'.
Proof.
  destruct (first_estimate_after_reset false 100 0 (startListening false true initial))
    as (_ & A & _ & _ & _ & _ & _ & _ & B); try reflexivity.
  split; [exact A|]. apply B. reflexivity.
Defined.

(** The error is multiplied by 0.945 = 189/200 at each update. *)
Lemma smoothRepeatedly_error (n : nat) (f s : Q) :
  Qabs (smoothRepeatedly (S n) f s - f)
  == (189 # 200) * Qabs (smoothRepeatedly n f s - f).
Proof.
  cbn [smoothRepeatedly]. rewrite smooth_error, Qabs_Qmult.
  reflexivity.
Qed.

Lemma smoothRepeatedly_bound (n : nat) (f s : Q) :
  Qabs (smoothRepeatedly n f s - f) * (1 + inject_Z (Z.of_nat n) * (11 # 189))
  <= Qabs (s - f).
Proof.
  induction n as [|n IH].
  - cbn [smoothRepeatedly]. change (inject_Z (Z.of_nat 0)) with 0.
    setoid_replace (Qabs (s - f) * (1 + 0 * (11 # 189))) with (Qabs (s - f)) by ring.
    apply Qle_refl.
  - rewrite smoothRepeatedly_error.
    pose proof (Qabs_nonneg (smoothRepeatedly n f s - f)) as P.
    set (d := Qabs (smoothRepeatedly n f s - f)) in *.
    eapply Qle_trans; [|exact IH].
    rewrite Nat2Z.inj_succ. unfold Z.succ. rewrite inject_Z_plus.
    set (k := inject_Z (Z.of_nat n)).
    assert (K : 0 <= k).
    { unfold k. change 0 with (inject_Z 0). rewrite <- Zle_Qle. lia. }
    change (inject_Z 1) with 1.
    setoid_replace ((189 # 200) * d * (1 + (k + 1) * (11 # 189)))
      with (d * (1 + k * (11 # 200))) by ring.
    nra.
Qed.

Lemma smoothRepeatedly_side (n : nat) (f s : Q) :
  (s <= f -> smoothRepeatedly n f s <= f)
  /\ (f <= s -> f <= smoothRepeatedly n f s).
Proof.
  induction n as [|n [IH1 IH2]]; cbn [smoothRepeatedly]; [tauto|].
  pose proof (smooth_error f (smoothRepeatedly n f s)) as S.
  split; intro H; [specialize (IH1 H)|specialize (IH2 H)]; lra.
Qed.

Lemma smoothRepeatedly_limit (f s eps : Q) :
  0 < eps ->
  exists N, forall n, (N <= n)%nat -> Qabs (smoothRepeatedly n f s - f) < eps.
Proof.
  intro Peps.
  set (c := (11 # 189) * eps).
  assert (Pc : 0 < c) by (unfold c; lra).
  exists (S (Z.to_nat (Qceiling (Qabs (s - f) / c)))).
  intros n Hn.
  pose proof (smoothRepeatedly_bound n f s) as B.
  pose proof (Qabs_nonneg (smoothRepeatedly n f s - f)) as P.
  set (d := Qabs (smoothRepeatedly n f s - f)) in *.
  set (k := inject_Z (Z.of_nat n)) in *.
  assert (K : Qabs (s - f) < k * c).
  { assert (L : Qabs (s - f) / c < k).
    { eapply Qle_lt_trans; [apply Qle_ceiling|].
      unfold k. rewrite <- Zlt_Qlt. lia. }
    setoid_replace (Qabs (s - f)) with (Qabs (s - f) / c * c)
      by (field; lra).
    apply Qmult_lt_r; trivial. }
  assert (K0 : 0 <= k).
  { unfold k. change 0 with (inject_Z 0). rewrite <- Zle_Qle. lia. }
  apply Qnot_le_lt. intro G. unfold c in K. nra.
Qed.

(** C8, as the code has it.  Let the estimate [f] be in the band [80, 200]
    and the smoother [s] in [0, 200].  When [s] is at least 10^-9 away from
    [f], one update strictly reduces the distance [|smoothed - f|] and leaves
    the smoothed value on the side of [f] where it was (no overshoot); when
    [s] is within 10^-9 of [f], the updated value is within 10^-9 of [f] too.
    The updated value is again in [0, 200], and repeated updates with the
    same [f] bring the smoother within 10^-9 of [f] after finitely many
    steps, for good. *)
Theorem smoother_settles_near_estimate (f s : Q) :
  80 <= f -> f <= 200 -> 0 <= s -> s <= 200 ->
  let tolerance := 1 # 1000000000 in
  (tolerance <= Qabs (s - f) ->
   Qabs (smooth f s - f) < Qabs (s - f)
   /\ (s < f -> smooth f s < f)
   /\ (f < s -> f < smooth f s))
  /\ (Qabs (s - f) <= tolerance -> Qabs (smooth f s - f) <= tolerance)
  /\ (0 <= smooth f s /\ smooth f s <= 200)
  /\ (exists N, forall n, (N <= n)%nat ->
                          Qabs (smoothRepeatedly n f s - f) <= tolerance).
Proof.
  intros Lf Uf Ls Us tolerance.
  pose proof (smoothRepeatedly_error 0 f s) as E.
  cbn [smoothRepeatedly] in E.
  pose proof (smooth_error f s) as D.
  pose proof (Qabs_nonneg (s - f)) as P.
  split; [|split; [|split]].
  - intro Far. unfold tolerance in Far. split; [|split]; lra.
  - intro Near. unfold tolerance in *. lra.
  - unfold smooth, SMOOTHING_ALPHA. split; lra.
  - destruct (smoothRepeatedly_limit f s tolerance) as [N H]; [reflexivity|].
    exists N. intros n Hn. apply Qlt_le_weak. now apply H.
Qed.

Lemma smoother_settles_near_estimate_witness :
  Qabs (smooth 100 0 - 100) < Qabs (0 - 100)
  /\ smooth 100 0 < 100.
Proof.
  destruct (smoother_settles_near_estimate 100 0) as (Far & _);
    try discriminate.
  destruct Far as (A & B & _); [discriminate|].
  split; [exact A|]. apply B. reflexivity.
Defined.

(** C8, as the specification states it, fails for a smoother that already
    equals the estimate: the distance is 0 before and after the update, so it
    does not shrink strictly. *)
Lemma settled_smoother_does_not_shrink :
  0 < 100
  /\ smooth 100 100 == 100
  /\ ~ Qabs (smooth 100 100 - 100) < Qabs (100 - 100).
Proof.
  split; [reflexivity|]. split; [reflexivity|].
  vm_compute. discriminate.
Qed.

End Smoother.

(** ** The freeze timeout *)

Section Freeze.

Import App.

Lemma handle_keeps_stale (st : State) (e : Event) :
  LoopIsStale st -> LoopIsStale (handle st e).
Proof.
  intros [T F]. destruct e as [granted|f now|now|]; cbn [handle].
  - unfold handleToggleListening.
    destruct (isListening st) eqn:L.
    + split; [reflexivity|discriminate].
    + unfold startListening. destruct granted; split; cbn; trivial; discriminate.
  - destruct (animationFrameId st) as [[|]|] eqn:A;
      [congruence| |split; [exact T|congruence]].
    destruct (isFrequencyInRange f) eqn:V.
    + rewrite (tick_valid false f now st V). split; [reflexivity|discriminate].
    + rewrite (tick_invalid false f now st V), T.
      split; [reflexivity|discriminate].
  - rewrite T. now split.
  - unfold displayInterval.
    destruct (isListening st); [destruct (Js.ltb 1 (smoothedFrequencyRef st))|];
      now split.
Qed.

Lemma run_keeps_stale (events : list Event) (st : State) :
  LoopIsStale st -> LoopIsStale (run st events).
Proof.
  revert st. induction events as [|e events IH]; intros st H; cbn; trivial.
  apply IH. now apply handle_keeps_stale.
Qed.

(** What the freeze logic does in a closure that captured
    [isListening = true]: a tick without a valid estimate arms the timeout for
    [now + 5000] when none is pending and leaves a pending one alone, a tick
    with a valid estimate cancels it, and the timeout zeroes the three values
    when it is due and not before. *)
Lemma freeze_logic_when_listening (f : Q) (now : Z) (st : State) :
  (isFrequencyInRange f = false ->
   let st' := processAudio true f now st in
   resetStateTimeoutRef st'
   = match resetStateTimeoutRef st with
     | Some due => Some due
     | None => Some (now + 5000)%Z
     end
   /\ detectedFrequency st' = detectedFrequency st
   /\ displayedFrequency st' = displayedFrequency st
   /\ smoothedFrequencyRef st' = smoothedFrequencyRef st)
  /\ (isFrequencyInRange f = true ->
      let st' := processAudio true f now st in
      resetStateTimeoutRef st' = None
      /\ smoothedFrequencyRef st' = smooth f (smoothedFrequencyRef st)
      /\ detectedFrequency st' = smooth f (smoothedFrequencyRef st)
      /\ displayedFrequency st' = displayedFrequency st)
  /\ (forall due, resetStateTimeoutRef st = Some due ->
        ((now < due)%Z -> handle st (TimeoutElapsed now) = st)
        /\ ((due <= now)%Z ->
            let st' := handle st (TimeoutElapsed now) in
            detectedFrequency st' = 0 /\ displayedFrequency st' = 0
            /\ smoothedFrequencyRef st' = 0 /\ resetStateTimeoutRef st' = None)).
Proof.
  split; [|split].
  - intros V st'. unfold st'. rewrite (tick_invalid true f now st V).
    repeat split.
  - intros V st'. unfold st'. rewrite (tick_valid true f now st V).
    repeat split.
  - intros due E. cbn [handle]. rewrite E. split; intro H.
    + now replace (due <=? now)%Z with false by lia.
    + replace (due <=? now)%Z with true by lia. repeat split.
Qed.

(** C5, on the code.  From the first render on, whatever happens, the frame
    loop runs the [processAudio] closure that captured [isListening = false],
    so no freeze timeout is ever armed.  In [silenceAfterOneReading] the
    instant value and the smoother still hold 5.5 (0.055 * 100) after 6000 ms
    of silence. *)
Theorem freeze_timeout_is_never_armed :
  (forall events,
      resetStateTimeoutRef (run initial events) = None
      /\ animationFrameId (run initial events) <> Some true)
  /\ isListening (run initial silenceAfterOneReading) = true
  /\ resetStateTimeoutRef (run initial silenceAfterOneReading) = None
  /\ detectedFrequency (run initial silenceAfterOneReading) == 5.5
  /\ smoothedFrequencyRef (run initial silenceAfterOneReading) == 5.5.
Proof.
  split.
  - intro events. apply run_keeps_stale. split; [reflexivity|discriminate].
  - repeat split.
Qed.

End Freeze.

(** ** The note mapper *)

Section Notes.

Import NoteMapper.
Local Open Scope R_scope.

Lemma ln2_pos : 0 < ln 2.
Proof. pose proof ln_lt_2. lra. Qed.

Lemma indexOf_nameAt (i : Z) :
  (0 <= i < 12)%Z -> exists name, nameAt i = Some name /\ indexOf (Some name) = i.
Proof.
  intro H.
  assert (C : i = 0%Z \/ i = 1%Z \/ i = 2%Z \/ i = 3%Z \/ i = 4%Z \/ i = 5%Z
              \/ i = 6%Z \/ i = 7%Z \/ i = 8%Z \/ i = 9%Z \/ i = 10%Z \/ i = 11%Z)
    by lia.
  repeat (destruct C as [ -> | C ]; [eexists; split; reflexivity|]).
  subst i. eexists; split; reflexivity.
Qed.

Lemma nameAt_indexOf (name : string) :
  In name NOTE_NAMES ->
  (0 <= indexOf (Some name) < 12)%Z /\ nameAt (indexOf (Some name)) = Some name.
Proof.
  intro H. cbn in H.
  repeat (destruct H as [ <- | H ]; [split; [cbv; split; congruence|reflexivity]|]).
  contradiction.
Qed.

Lemma targetFrequency_pos (noteName : option string) (octave : Z) :
  0 < getFrequencyForNote noteName octave.
Proof.
  unfold getFrequencyForNote, A4_FREQUENCY, Rpower.
  apply Rmult_lt_0_compat; [lra|apply exp_pos].
Qed.

(** What [frequencyToNoteDetails] computes for a positive frequency whose
    rounded note number is not negative: with [x = 12 log2 (f / 440)] and
    [r = round x], the target is [440 * 2^(r/12)] and the deviation is
    [100 (x - r)] cents. *)
Lemma frequencyToNoteDetails_value (f : R) :
  0 < f ->
  let x := 12 * (ln (f / A4_FREQUENCY) / ln 2) in
  let r := Math_round x in
  (0 <= r + 57)%Z ->
  exists d, frequencyToNoteDetails f = Some d
            /\ noteName d = nameAt ((r + 57) mod 12)
            /\ indexOf (noteName d) = ((r + 57) mod 12)%Z
            /\ octave d = ((r + 57) / 12)%Z
            /\ frequency d = A4_FREQUENCY * Rpower 2 (IZR r / 12)
            /\ cents d = 100 * (x - IZR r).
Proof.
  intros Pf x r Hr.
  unfold frequencyToNoteDetails.
  destruct (Req_dec_T f 0) as [E|_]; [lra|].
  fold x. fold r.
  rewrite Z.rem_mod_nonneg by lia.
  destruct (indexOf_nameAt ((r + 57) mod 12)) as (name & En & Ei).
  { apply Z.mod_pos_bound. lia. }
  eexists. split; [reflexivity|]. cbn [noteName octave frequency cents].
  rewrite En, Ei.
  assert (Et : getFrequencyForNote (Some name) ((r + 57) / 12)
               = A4_FREQUENCY * Rpower 2 (IZR r / 12)).
  { unfold getFrequencyForNote. rewrite Ei.
    replace ((r + 57) mod 12 + (r + 57) / 12 * 12 - 57)%Z with r; trivial.
    pose proof (Z.div_mod (r + 57) 12). lia. }
  rewrite Et. repeat split.
  unfold Math_log2, x, A4_FREQUENCY.
  pose proof ln2_pos as L2.
  assert (P2 : 0 < Rpower 2 (IZR r / 12)) by (unfold Rpower; apply exp_pos).
  assert (Eln : ln (f / (440 * Rpower 2 (IZR r / 12)))
                = ln (f / 440) - IZR r / 12 * ln 2).
  { replace (f / (440 * Rpower 2 (IZR r / 12)))
      with (f / 440 * / Rpower 2 (IZR r / 12)) by (field; lra).
    rewrite ln_mult; [|lra|now apply Rinv_0_lt_compat].
    rewrite ln_Rinv by exact P2. rewrite ln_Rpower. lra. }
  rewrite Eln. field. lra.
Qed.

Lemma round_near (x : R) : - / 2 <= x - IZR (Math_round x) < / 2.
Proof.
  unfold Math_round. pose proof (Zfloor_bound (x + / 2)). lra.
Qed.

Lemma ln_sixteenth : ln (/ 16) = - (4 * ln 2).
Proof.
  rewrite ln_Rinv by lra.
  replace 16 with (2 * 2 * (2 * 2)) by lra.
  rewrite !ln_mult by lra. lra.
Qed.

Lemma low_octave_is_below_band (noteName : option string) (octave : Z) :
  (octave < 0)%Z -> getFrequencyForNote noteName octave < 80.
Proof.
  intro H. unfold getFrequencyForNote, A4_FREQUENCY.
  assert (I : (indexOf noteName <= 11)%Z).
  { destruct noteName as [name|]; [|cbv; congruence].
    unfold indexOf, NOTE_NAMES. cbn [indexFrom].
    repeat (destruct (String.eqb _ name); [lia|]). lia. }
  set (n := (indexOf noteName + octave * 12)%Z).
  assert (Hn : IZR (n - 57) <= IZR (-58)) by (apply IZR_le; lia).
  assert (P : Rpower 2 (IZR (n - 57) / 12) < Rpower 2 (- INR 4)).
  { apply Rpower_lt; [lra|]. cbn [INR]. lra. }
  rewrite Rpower_Ropp, Rpower_pow in P by lra.
  replace (/ 2 ^ 4) with (/ 16) in P by (cbn; f_equal; lra).
  lra.
Qed.

(** C7.  For every note name of the table and every octave that is not
    negative, which covers every note whose frequency is 80 Hz or more, the
    frequency of the note maps back to the same note name and octave, with
    the same target frequency and a deviation of exactly 0 cents. *)
Theorem note_round_trip (name : string) (octave : Z) :
  In name NOTE_NAMES ->
  (0 <= octave)%Z \/ 80 <= getFrequencyForNote (Some name) octave ->
  let target := getFrequencyForNote (Some name) octave in
  frequencyToNoteDetails target
  = Some (mkNoteDetails (Some name) octave target 0).
Proof.
  intros I O target.
  assert (Ho : (0 <= octave)%Z).
  { destruct O as [O|O]; trivial.
    destruct (Z_lt_dec octave 0) as [L|L]; [|lia].
    pose proof (low_octave_is_below_band (Some name) octave L). lra. }
  clear O. destruct (nameAt_indexOf name I) as [Bi Ni].
  set (n := (indexOf (Some name) + octave * 12)%Z).
  pose proof ln2_pos as L2.
  assert (Pt : 0 < target) by apply targetFrequency_pos.
  assert (Ex : 12 * (ln (target / A4_FREQUENCY) / ln 2) = IZR (n - 57)).
  { unfold target, getFrequencyForNote. fold n.
    replace (A4_FREQUENCY * Rpower 2 (IZR (n - 57) / 12) / A4_FREQUENCY)
      with (Rpower 2 (IZR (n - 57) / 12))
      by (unfold A4_FREQUENCY; field).
    rewrite ln_Rpower. field. lra. }
  assert (Er : Math_round (IZR (n - 57)) = (n - 57)%Z).
  { unfold Math_round. apply Zfloor_eq. lra. }
  destruct (frequencyToNoteDetails_value target Pt) as (d & E & A & _ & B & C & D).
  { rewrite Ex, Er. lia. }
  rewrite Ex, Er in A, B, C, D.
  replace (n - 57 + 57)%Z with n in A, B by lia.
  assert (Em : (n mod 12 = indexOf (Some name))%Z).
  { unfold n. rewrite Z.mod_add by lia. apply Z.mod_small. lia. }
  assert (Ed : (n / 12 = octave)%Z).
  { unfold n. rewrite Z.div_add by lia. rewrite Z.div_small by lia. lia. }
  rewrite Em, Ni in A. rewrite Ed in B.
  rewrite E. f_equal. destruct d as [dn doct df dc]. cbn in A, B, C, D.
  subst dn doct. f_equal.
  - rewrite C. reflexivity.
  - rewrite D. lra.
Qed.

Lemma note_round_trip_witness :
  frequencyToNoteDetails (getFrequencyForNote (Some "F#"%string) 2)
  = Some (mkNoteDetails (Some "F#"%string) 2
            (getFrequencyForNote (Some "F#"%string) 2) 0).
Proof.
  apply (note_round_trip "F#"%string 2).
  - cbn. tauto.
  - left. lia.
Defined.

End Notes.

(** * Further properties *)

(** ** The detector: silence, sign, contents of the array *)

Lemma square_below_threshold (x : Q) : Qabs x < 0.01 -> x * x < 0.01 * 0.01.
Proof.
  intro H. apply Qabs_Qlt_condition in H. destruct H as [L U]. nra.
Qed.

Lemma sumSquares_from (l : list Q) (start : Q) :
  (forall x, In x l -> Qabs x < 0.01) ->
  fold_left (fun sum val => sum + val * val) l start
  <= start + inject_Z (Z.of_nat (length l)) * (0.01 * 0.01).
Proof.
  revert start. induction l as [|x l IH]; intros start H.
  - cbn [fold_left length]. change (inject_Z (Z.of_nat 0)) with 0. lra.
  - cbn [fold_left length]. rewrite Nat2Z.inj_succ. unfold Z.succ.
    rewrite inject_Z_plus. change (inject_Z 1) with 1.
    eapply Qle_trans; [apply IH; intros y Hy; apply H; now right|].
    pose proof (square_below_threshold x (H x (or_introl eq_refl))).
    lra.
Qed.

(** X1.  A buffer that is not empty and whose samples all have an absolute
    value below 0.01 is silence: the call returns 0 at the RMS gate, whatever
    the sample rate, valid or not. *)
Theorem quiet_buffer_is_silence (buffer : list Q) (sampleRate : Q) :
  buffer <> [] ->
  (forall x, In x buffer -> Qabs x < 0.01) ->
  findFundamentalFrequency buffer sampleRate = Return 0.
Proof.
  intros N H. unfold findFundamentalFrequency.
  replace (rmsBelowThreshold buffer) with true; trivial.
  symmetry. destruct buffer as [|x l]; [congruence|].
  unfold rmsBelowThreshold, sumSquares. apply ltb_lt.
  set (n := inject_Z (Z.of_nat (length (x :: l)))).
  assert (Pn : 0 < n).
  { unfold n. change 0 with (inject_Z 0). rewrite <- Zlt_Qlt. cbn [length]. lia. }
  apply Qlt_shift_div_r; [exact Pn|].
  cbn [fold_left].
  eapply Qle_lt_trans;
    [apply sumSquares_from; intros y Hy; apply H; now right|].
  pose proof (square_below_threshold x (H x (or_introl eq_refl))) as Sx.
  unfold n. cbn [length]. rewrite Nat2Z.inj_succ. unfold Z.succ.
  rewrite inject_Z_plus. change (inject_Z 1) with 1. lra.
Qed.

Lemma quiet_buffer_is_silence_witness :
  findFundamentalFrequency [0.005; -0.009; 0] (-44100) = Return 0.
Proof.
  apply quiet_buffer_is_silence.
  - discriminate.
  - intros x [<-|[<-|[<-|[]]]]; reflexivity.
Defined.

Lemma frequencyOfPeriod_nonneg (c : list Q) (searchSize : Z) (sampleRate : Q)
      (period : Z) :
  0 <= sampleRate -> 0 <= frequencyOfPeriod c searchSize sampleRate period.
Proof.
  intro P. unfold frequencyOfPeriod.
  destruct (period <=? 0)%Z eqn:E; [apply Qle_refl|].
  assert (Plain : 0 <= sampleRate / inject_Z period).
  { apply Qle_shift_div_l.
    - change 0 with (inject_Z 0). rewrite <- Zlt_Qlt. lia.
    - lra. }
  destruct ((0 <? period)%Z && (period <? searchSize - 1)%Z); trivial.
  cbv zeta.
  destruct (negb (Qeq_bool _ 0)); trivial.
  destruct (Qle_bool _ 0) eqn:L; [apply Qle_refl|].
  apply Qle_shift_div_l; [|lra].
  apply Qnot_le_lt. intro G. apply Qle_bool_iff in G. congruence.
Qed.

Lemma positive_maxVal_positive_rate (buffer : list Q) (sampleRate : Q) :
  0 < maxValOf buffer sampleRate -> 0 < sampleRate.
Proof.
  intro M. apply Qnot_le_lt. intro N.
  apply (Qlt_not_le _ _ M). unfold maxValOf.
  apply findMaxVal_nonpos. apply correlations_nonpos.
  right. now apply searchSize_nonpos.
Qed.

(** X2.  Whatever the buffer and the sample rate, a number that the call
    returns is never negative. *)
Theorem returned_frequency_is_not_negative
        (buffer : list Q) (sampleRate v : Q) :
  findFundamentalFrequency buffer sampleRate = Return v -> 0 <= v.
Proof.
  unfold findFundamentalFrequency.
  destruct (rmsBelowThreshold buffer); [intro E; inversion E; apply Qle_refl|].
  destruct (negb (Js.valid_length (searchSizeOf sampleRate))); [discriminate|].
  destruct (Qle_bool (maxValOf buffer sampleRate) 0) eqn:M;
    intro E; inversion E; [apply Qle_refl|].
  apply frequencyOfPeriod_nonneg. apply Qlt_le_weak.
  apply (positive_maxVal_positive_rate buffer).
  apply Qnot_le_lt. intro G. apply Qle_bool_iff in G. congruence.
Qed.

Lemma returned_frequency_is_not_negative_witness :
  0 <= 983040 # 3712.
Proof.
  apply (returned_frequency_is_not_negative twoPeaks 480). reflexivity.
Defined.

Lemma range_shift (lo hi : Z) :
  Js.range (lo + 1) (hi + 1) = map (fun i => (i + 1)%Z) (Js.range lo hi).
Proof.
  unfold Js.range. rewrite map_map.
  replace (hi + 1 - (lo + 1))%Z with (hi - lo)%Z by lia.
  apply map_ext. intro k. lia.
Qed.

Lemma fold_left_map_index (g : Z -> Q) (l : list Z) (start : Q) :
  fold_left (fun acc i => acc + g i) (map (fun i => (i + 1)%Z) l) start
  = fold_left (fun acc i => acc + g (i + 1)%Z) l start.
Proof.
  revert start. induction l as [|i l IH]; intro start; cbn; trivial.
Qed.

Lemma fold_left_sum_ext (g h : Z -> Q) (l : list Z) (start : Q) :
  (forall i, In i l -> g i = h i) ->
  fold_left (fun acc i => acc + g i) l start
  = fold_left (fun acc i => acc + h i) l start.
Proof.
  revert start. induction l as [|i l IH]; intros start H; cbn; trivial.
  rewrite (H i) by now left. apply IH. intros k Hk. apply H. now right.
Qed.

Lemma fold_left_sum_start (g : Z -> Q) (l : list Z) (start : Q) :
  fold_left (fun acc i => acc + g i) l start
  == start + fold_left (fun acc i => acc + g i) l 0.
Proof.
  revert start. induction l as [|i l IH]; intro start; cbn.
  - ring.
  - rewrite IH, (IH (0 + g i)). ring.
Qed.

Lemma get_cons_succ (x : Q) (a : list Q) (i : Z) :
  (0 <= i)%Z -> Js.get (x :: a) (i + 1) = Js.get a i.
Proof.
  intro H. unfold Js.get.
  replace (i + 1 <? 0)%Z with false by lia.
  replace (i <? 0)%Z with false by lia.
  replace (Z.to_nat (i + 1)) with (S (Z.to_nat i)) by lia. reflexivity.
Qed.

(** The loop over [i = 0 .. m - 1] of the products of the elements of two
    arrays is the dot product of the arrays. *)
Lemma pairwise_sum_is_dot (a b : list Q) :
  forall m : Z,
    (m = Z.min (Z.of_nat (length a)) (Z.of_nat (length b))) ->
    fold_left (fun acc i => acc + Js.num (Js.get a i) * Js.num (Js.get b i))
              (Js.range 0 m) 0
    == dot a b.
Proof.
  revert b. induction a as [|x a IH]; intros b m Hm.
  - cbn [length] in Hm. rewrite range_nil by lia. reflexivity.
  - destruct b as [|y b].
    + cbn [length] in Hm. rewrite range_nil by lia. reflexivity.
    + cbn [length] in Hm. rewrite range_cons by lia.
      cbn [fold_left dot].
      change (Js.num (Js.get (x :: a) 0)) with x.
      change (Js.num (Js.get (y :: b) 0)) with y.
      rewrite fold_left_sum_start.
      replace m with (m - 1 + 1)%Z at 1 by lia.
      change (0 + 1)%Z with (0 + 1)%Z.
      rewrite (range_shift 0 (m - 1)).
      rewrite (fold_left_map_index
                 (fun i => Js.num (Js.get (x :: a) i) * Js.num (Js.get (y :: b) i))).
      rewrite (fold_left_sum_ext _
                 (fun i => Js.num (Js.get a i) * Js.num (Js.get b i))).
      * rewrite (IH b (m - 1)%Z) by lia. ring.
      * intros i Hi. apply in_range in Hi.
        now rewrite !get_cons_succ by lia.
Qed.

Lemma get_skipn (a : list Q) (lag i : Z) :
  (0 <= lag)%Z -> (0 <= i)%Z ->
  Js.get (skipn (Z.to_nat lag) a) i = Js.get a (i + lag).
Proof.
  intros L I. unfold Js.get.
  replace (i <? 0)%Z with false by lia.
  replace (i + lag <? 0)%Z with false by lia.
  rewrite nth_error_skipn. f_equal. lia.
Qed.

Lemma correlationAt_is_dot (buffer : list Q) (lag : Z) :
  (0 <= lag)%Z ->
  correlationAt buffer lag == dot buffer (skipn (Z.to_nat lag) buffer).
Proof.
  intro L. unfold correlationAt, correlationFrom.
  rewrite (fold_left_sum_ext _
             (fun i => Js.num (Js.get buffer i)
                       * Js.num (Js.get (skipn (Z.to_nat lag) buffer) i))).
  - assert (E : (Z.of_nat (length buffer) - lag
                 <= Z.min (Z.of_nat (length buffer))
                          (Z.of_nat (length (skipn (Z.to_nat lag) buffer))))%Z
                /\ (Z.min (Z.of_nat (length buffer))
                          (Z.of_nat (length (skipn (Z.to_nat lag) buffer)))
                    <= Z.max 0 (Z.of_nat (length buffer) - lag))%Z).
    { rewrite length_skipn. lia. }
    destruct (Z_le_dec (Z.of_nat (length buffer) - lag) 0) as [Neg|Pos].
    + rewrite range_nil by lia.
      rewrite <- (pairwise_sum_is_dot buffer (skipn (Z.to_nat lag) buffer) _ eq_refl).
      rewrite range_nil by lia. reflexivity.
    + apply pairwise_sum_is_dot. lia.
  - intros i Hi. apply in_range in Hi. now rewrite get_skipn by lia.
Qed.

(** X3.  What the nested loops leave in the array: it has [searchSize]
    elements; the element at a lag from [minPeriod] on is the dot product of
    the buffer with itself shifted by the lag, and the elements below
    [minPeriod] keep the fill value 0. *)
Theorem correlations_are_shifted_dot_products
        (buffer : list Q) (sampleRate : Q) (lag : Z) :
  (0 <= lag < searchSizeOf sampleRate)%Z ->
  length (correlationsOf buffer sampleRate) = Z.to_nat (searchSizeOf sampleRate)
  /\ exists v,
       Js.get (correlationsOf buffer sampleRate) lag = Some v
       /\ v == if (minPeriodOf sampleRate <=? lag)%Z
               then dot buffer (skipn (Z.to_nat lag) buffer)
               else 0.
Proof.
  intro H. split; [apply correlationsOf_length|].
  rewrite correlationsOf_get by exact H. eexists. split; [reflexivity|].
  destruct (minPeriodOf sampleRate <=? lag)%Z; [|reflexivity].
  apply correlationAt_is_dot. lia.
Qed.

Lemma correlations_are_shifted_dot_products_witness :
  length (correlationsOf risingCorrelation 400) = 5%nat
  /\ exists v,
       Js.get (correlationsOf risingCorrelation 400) 3 = Some v
       /\ v == dot risingCorrelation (skipn 3 risingCorrelation).
Proof.
  apply (correlations_are_shifted_dot_products risingCorrelation 400 3).
  split; [discriminate|reflexivity].
Defined.

Lemma correlationAt_beyond_buffer (buffer : list Q) (lag : Z) :
  (Z.of_nat (length buffer) <= lag)%Z -> correlationAt buffer lag = 0.
Proof.
  intro H. unfold correlationAt, correlationFrom. now rewrite range_nil by lia.
Qed.

(** X4.  A buffer with no more samples than the smallest lag leaves every
    correlation at 0, and the call returns 0 (the array being allocated). *)
Theorem short_buffer_returns_0 (buffer : list Q) (sampleRate : Q) :
  (Z.of_nat (length buffer) <= minPeriodOf sampleRate)%Z ->
  Js.valid_length (searchSizeOf sampleRate) = true ->
  (forall lag v, Js.get (correlationsOf buffer sampleRate) lag = Some v -> v = 0)
  /\ findFundamentalFrequency buffer sampleRate = Return 0.
Proof.
  intros Short V.
  assert (Z : forall lag v,
             Js.get (correlationsOf buffer sampleRate) lag = Some v -> v = 0).
  { intros lag v G.
    assert (B : (0 <= lag < searchSizeOf sampleRate)%Z).
    { apply (correlationsOf_defined buffer). eauto. }
    rewrite correlationsOf_get in G by exact B.
    destruct (minPeriodOf sampleRate <=? lag)%Z eqn:E; [|congruence].
    rewrite correlationAt_beyond_buffer in G by lia. congruence. }
  split; [exact Z|].
  unfold findFundamentalFrequency.
  destruct (rmsBelowThreshold buffer); trivial.
  rewrite V. cbn [negb].
  replace (Qle_bool (maxValOf buffer sampleRate) 0) with true; trivial.
  symmetry. apply Qle_bool_iff. unfold maxValOf.
  apply findMaxVal_nonpos. intros i v G. rewrite (Z i v G). apply Qle_refl.
Qed.

Lemma short_buffer_returns_0_witness :
  findFundamentalFrequency [1; -1; 1; -1; 1] 1000 = Return 0.
Proof.
  apply (short_buffer_returns_0 [1; -1; 1; -1; 1] 1000);
    [vm_compute; discriminate|reflexivity].
Defined.

Lemma minPeriod_at_least_2 (sampleRate : Q) :
  400 <= sampleRate -> (2 <= minPeriodOf sampleRate)%Z.
Proof.
  intro H. unfold minPeriodOf, maxFreq.
  rewrite <- (Qfloor_Z 2). apply Qfloor_resp_le.
  change (inject_Z 2) with 2. apply Qle_shift_div_l; lra.
Qed.

Lemma minPeriod_le_searchSize (sampleRate : Q) :
  0 <= sampleRate -> (minPeriodOf sampleRate <= searchSizeOf sampleRate)%Z.
Proof.
  intro H. unfold minPeriodOf, searchSizeOf, maxFreq, minFreq.
  rewrite Zle_Qle.
  eapply Qle_trans; [apply Qfloor_le|].
  eapply Qle_trans; [|apply Qle_ceiling].
  unfold Qdiv. change (/ 200) with (1 # 200). change (/ 80) with (1 # 80). lra.
Qed.

(** X5.  From a sample rate of 400 Hz up, the walk that looks for the first
    dip does not leave lag 0, because the elements 0 and 1 of the array are
    both the fill value 0; the search starts at [minPeriod]. *)
Theorem first_dip_stays_at_0 (buffer : list Q) (sampleRate : Q) :
  400 <= sampleRate ->
  findFirstDip (correlationsOf buffer sampleRate) (searchSizeOf sampleRate) = 0%Z
  /\ searchStartOf buffer sampleRate = minPeriodOf sampleRate.
Proof.
  intro H.
  pose proof (minPeriod_at_least_2 sampleRate H) as M.
  assert (S : (minPeriodOf sampleRate <= searchSizeOf sampleRate)%Z).
  { apply minPeriod_le_searchSize. lra. }
  assert (D : findFirstDip (correlationsOf buffer sampleRate)
                (searchSizeOf sampleRate) = 0%Z).
  { unfold findFirstDip.
    destruct (Z.to_nat (searchSizeOf sampleRate)) as [|fuel] eqn:F; trivial.
    cbn [firstDipLoop].
    rewrite !correlationsOf_get by lia.
    replace (minPeriodOf sampleRate <=? 0)%Z with false by lia.
    replace (minPeriodOf sampleRate <=? 0 + 1)%Z with false by lia.
    cbn [Js.gt]. replace (Js.ltb 0 0) with false by reflexivity.
    now rewrite andb_false_r. }
  split; [exact D|]. unfold searchStartOf. rewrite D. lia.
Qed.

Lemma first_dip_stays_at_0_witness :
  findFirstDip (correlationsOf twoPeaks 44100) (searchSizeOf 44100) = 0%Z
  /\ searchStartOf twoPeaks 44100 = minPeriodOf 44100.
Proof.
  apply (first_dip_stays_at_0 twoPeaks 44100). discriminate.
Defined.

(** ** The detector: the fallback and the refinement *)

Lemma range_split (lo hi T : Z) (l1 l2 : list Z) :
  Js.range lo hi = l1 ++ T :: l2 -> l1 = Js.range lo T.
Proof.
  revert l1. pattern lo, hi. apply range_ind; clear lo hi.
  - intros lo hi H l1 E. rewrite range_nil in E by exact H.
    destruct l1; discriminate.
  - intros lo hi H IH l1 E. rewrite range_cons in E by exact H.
    destruct l1 as [|x l1]; cbn in E; injection E as E1 E2.
    + subst T. now rewrite range_nil by lia.
    + subst x.
      assert (I : In T (Js.range (lo + 1) hi)).
      { rewrite E2. apply in_or_app. right. now left. }
      apply in_range in I.
      rewrite (range_cons lo T) by lia. f_equal. now apply IH.
Qed.

Lemma fallback_loop (c : list Q) (l : list Z) :
  forall (m0 : Q) (p0 : Z),
    let r := fold_left
               (fun '(fallbackMaxVal, maxPos) i =>
                  if Js.gt (Js.get c i) (Some fallbackMaxVal)
                  then (Js.num (Js.get c i), i)
                  else (fallbackMaxVal, maxPos)) l (m0, p0) in
    m0 <= fst r
    /\ (forall i v, In i l -> Js.get c i = Some v -> v <= fst r)
    /\ (r = (m0, p0)
        \/ exists l1 l2,
             l = l1 ++ snd r :: l2
             /\ Js.get c (snd r) = Some (fst r)
             /\ m0 < fst r
             /\ forall i v, In i l1 -> Js.get c i = Some v -> v < fst r).
Proof.
  induction l as [|i l IH]; intros m0 p0; cbn [fold_left].
  - cbn. split; [apply Qle_refl|]. split; [intros ? ? []|now left].
  - destruct (Js.gt (Js.get c i) (Some m0)) eqn:G.
    + apply gt_Some in G. destruct G as (u & v & Eu & Ev & L).
      injection Ev as <-. rewrite Eu. cbn [Js.num].
      destruct (IH u i) as (A & B & C). cbv zeta in *.
      set (r := fold_left _ l (u, i)) in *.
      split; [lra|]. split.
      * intros k w [<-|I] Gk; [|now apply (B k)].
        rewrite Eu in Gk. injection Gk as <-. exact A.
      * right. destruct C as [C|(l1 & l2 & E & Gp & Lt & Before)].
        -- rewrite C. cbn [fst snd]. exists [], l. repeat split; trivial.
           intros ? ? [].
        -- exists (i :: l1), l2. rewrite E. repeat split; trivial; [lra|].
           intros k w [<-|I] Gk; [|now apply (Before k)].
           rewrite Eu in Gk. injection Gk as <-. exact Lt.
    + destruct (IH m0 p0) as (A & B & C). cbv zeta in *.
      set (r := fold_left _ l (m0, p0)) in *.
      assert (Small : forall w, Js.get c i = Some w -> w <= m0).
      { intros w Gw. rewrite Gw in G. cbn in G. now apply ltb_ge. }
      split; [exact A|]. split.
      * intros k w [<-|I] Gk; [|now apply (B k)].
        specialize (Small w Gk). lra.
      * destruct C as [C|(l1 & l2 & E & Gp & Lt & Before)]; [now left|].
        right. exists (i :: l1), l2. rewrite E. repeat split; trivial.
        intros k w [<-|I] Gk; [|now apply (Before k)].
        specialize (Small w Gk). lra.
Qed.

(** X6.  Let the buffer pass the RMS gate, the array be allocated and [M > 0]
    be the maximum of the correlations over the search range.  If no lag of
    the range is a local maximum above 0.9 * M, the chosen period is the
    first lag of the range whose correlation is [M]: every earlier lag of the
    range is strictly smaller. *)
Theorem fallback_is_first_maximum (buffer : list Q) (sampleRate M : Q) :
  let R := Js.get (correlationsOf buffer sampleRate) in
  let searchStart := searchStartOf buffer sampleRate in
  let searchSize := searchSizeOf sampleRate in
  let T := periodOf buffer sampleRate in
  rmsBelowThreshold buffer = false ->
  Js.valid_length searchSize = true ->
  IsMaximumOver R searchStart searchSize M ->
  0 < M ->
  (forall j, (searchStart <= j < searchSize)%Z -> ~ LocalMaxAbove R (0.9 * M) j) ->
  (searchStart <= T < searchSize)%Z
  /\ (exists v, R T = Some v /\ v == M)
  /\ (forall j v, (searchStart <= j < T)%Z -> R j = Some v -> v < M)
  /\ findFundamentalFrequency buffer sampleRate
     = Return (frequencyOfPeriod (correlationsOf buffer sampleRate) searchSize
                                 sampleRate T).
Proof.
  intros R searchStart searchSize T Gate Alloc Max Mpos NoPeak.
  assert (EM : maxValOf buffer sampleRate == M).
  { unfold maxValOf. now apply findMaxVal_is_maximum. }
  assert (ET : T = fallbackMaxPos (correlationsOf buffer sampleRate)
                     searchStart searchSize).
  { unfold T, periodOf, choosePeriod, firstClearPeak.
    fold searchStart searchSize.
    destruct (find _ (Js.range searchStart (searchSize - 1))) as [i|] eqn:F;
      [|reflexivity].
    exfalso. apply find_range_sound in F. destruct F as [B P].
    apply (NoPeak i); [lia|].
    apply isClearPeak_iff in P.
    apply (LocalMaxAbove_threshold _ (maxValOf buffer sampleRate * 0.9)); trivial.
    rewrite EM. apply Qmult_comm. }
  destruct (fallback_loop (correlationsOf buffer sampleRate)
              (Js.range searchStart searchSize) (-1) (-1)%Z) as (A & B & C).
  cbv zeta in *.
  fold (fallbackMaxPos (correlationsOf buffer sampleRate) searchStart searchSize)
    in C.
  set (r := fold_left _ (Js.range searchStart searchSize) (-1, (-1)%Z)) in *.
  destruct Max as [Upper (i & v & Hi & Gi & Ei)].
  assert (Big : M <= fst r).
  { rewrite <- Ei. apply (B i v); trivial. now apply in_range. }
  destruct C as [C|(l1 & l2 & E & Gp & Lt & Before)].
  { exfalso. rewrite C in Big. cbn in Big. lra. }
  change (snd r) with (fallbackMaxPos (correlationsOf buffer sampleRate)
                         searchStart searchSize) in E, Gp.
  rewrite <- ET in E, Gp.
  assert (InT : (searchStart <= T < searchSize)%Z).
  { apply in_range. rewrite E. apply in_or_app. right. now left. }
  assert (Eq : fst r == M).
  { apply Qle_antisym; [|exact Big]. now apply (Upper T). }
  split; [exact InT|]. split; [exists (fst r); now split|]. split.
  - intros j w Hj Gj. rewrite <- Eq. apply (Before j); trivial.
    rewrite (range_split _ _ _ _ _ E). now apply in_range.
  - unfold findFundamentalFrequency. rewrite Gate.
    fold searchSize. rewrite Alloc. cbn [negb].
    replace (Qle_bool (maxValOf buffer sampleRate) 0) with false; trivial.
    symmetry. destruct (Qle_bool (maxValOf buffer sampleRate) 0) eqn:Le; trivial.
    apply Qle_bool_iff in Le. rewrite EM in Le. lra.
Qed.

Lemma fallback_is_first_maximum_witness :
  (searchStartOf risingCorrelation 400 <= periodOf risingCorrelation 400
   < searchSizeOf 400)%Z
  /\ (exists v, Js.get (correlationsOf risingCorrelation 400)
                       (periodOf risingCorrelation 400) = Some v /\ v == 2).
Proof.
  destruct (fallback_is_first_maximum risingCorrelation 400 2) as (A & B & _).
  - reflexivity.
  - reflexivity.
  - split.
    + intros i v Hi.
      change (searchStartOf risingCorrelation 400) with 2%Z in Hi.
      change (searchSizeOf 400) with 5%Z in Hi.
      assert (C : i = 2%Z \/ i = 3%Z \/ i = 4%Z) by lia.
      destruct C as [ -> | [ -> | -> ] ]; vm_compute; intro E; inversion E; subst;
        discriminate.
    + exists 4%Z. eexists. split; [cbv; intuition discriminate|].
      split; [vm_compute; reflexivity|reflexivity].
  - reflexivity.
  - intros j Hj P.
    change (searchStartOf risingCorrelation 400) with 2%Z in Hj.
    change (searchSizeOf 400) with 5%Z in Hj.
    apply isClearPeak_iff in P.
    assert (C : j = 2%Z \/ j = 3%Z \/ j = 4%Z) by lia.
    destruct C as [ -> | [ -> | -> ] ]; vm_compute in P; discriminate.
  - split; [exact A|exact B].
Defined.



(** ** The session: what every reachable state satisfies *)

Section Reachable.

Import App.

Lemma smooth_range (f s : Q) :
  80 <= f -> f <= 200 -> 0 <= s -> s < 200 ->
  4.4 <= smooth f s /\ smooth f s < 200.
Proof.
  intros. unfold smooth, SMOOTHING_ALPHA. split; lra.
Qed.

Lemma total_bounds (history : list Reading) (a b : Q) :
  (forall r, In r history -> a <= freq r /\ freq r < b) ->
  inject_Z (Z.of_nat (length history)) * a <= total history
  /\ (history <> [] -> total history < inject_Z (Z.of_nat (length history)) * b).
Proof.
  induction history as [|r history IH]; intro H.
  - split; [|congruence].
    unfold total. cbn [fold_left length].
    change (inject_Z (Z.of_nat 0)) with 0. lra.
  - destruct IH as [Lo Hi]; [intros x Hx; apply H; now right|].
    destruct (H r (or_introl eq_refl)) as [Lr Hr].
    assert (E : total (r :: history) == freq r + total history).
    { change (total (r :: history))
        with (fold_left (fun sum x => sum + freq x) history (0 + freq r)).
      rewrite total_from. ring. }
    cbn [length]. rewrite Nat2Z.inj_succ. unfold Z.succ.
    rewrite inject_Z_plus. change (inject_Z 1) with 1. rewrite E.
    split; [lra|]. intros _.
    destruct history as [|r' history'].
    + unfold total in *. cbn [fold_left length] in *.
      change (inject_Z (Z.of_nat 0)) with 0 in *. lra.
    + assert (N : r' :: history' <> []) by discriminate.
      specialize (Hi N). lra.
Qed.

Lemma averageOf_bounds (history : list Reading) (a b : Q) :
  (forall r, In r history -> a <= freq r /\ freq r < b) ->
  history <> [] ->
  a <= averageOf history /\ averageOf history < b.
Proof.
  intros H N. destruct (total_bounds history a b H) as [Lo Hi].
  specialize (Hi N).
  destruct history as [|r history]; [congruence|].
  unfold averageOf.
  set (n := inject_Z (Z.of_nat (length (r :: history)))) in *.
  assert (Pn : 0 < n).
  { unfold n. change 0 with (inject_Z 0). rewrite <- Zlt_Qlt. cbn [length]. lia. }
  split.
  - apply Qle_shift_div_l; [exact Pn|]. lra.
  - apply Qlt_shift_div_r; [exact Pn|]. lra.
Qed.

Lemma initial_invariant : SessionInvariant initial.
Proof.
  repeat split; cbn; try discriminate; try lra; try tauto.
Qed.

Lemma handle_keeps_invariant (st : State) (e : Event) :
  SessionInvariant st -> SessionInvariant (handle st e).
Proof.
  intros Inv.
  pose proof Inv as (Stale & [S0 S200] & Hist & Avg & Disp).
  destruct e as [granted|f now|now|]; cbn [handle].
  - pose proof (handle_keeps_stale st (Click granted) Stale) as Stale'.
    cbn [handle] in Stale'. split; [exact Stale'|].
    unfold handleToggleListening, stopListening, startListening.
    destruct (isListening st); [|destruct granted]; cbn;
      (split; [split; lra|]); (split; [intros r []|]);
      (split; [reflexivity|left; reflexivity]).
  - destruct (animationFrameId st) as [captured|] eqn:A; [|exact Inv].
    assert (captured = false).
    { destruct Stale as [_ F]. destruct captured; congruence. }
    subst captured.
    assert (Stale' : LoopIsStale (processAudio false f now st)).
    { pose proof (handle_keeps_stale st (AnimationFrame f now) Stale) as K.
      cbn [handle] in K. now rewrite A in K. }
    destruct (isFrequencyInRange f) eqn:V.
    + rewrite (tick_valid false f now st V) in *.
      apply isFrequencyInRange_iff in V. destruct V as [Lo Hi].
      destruct (smooth_range f (smoothedFrequencyRef st) Lo Hi S0 S200)
        as [N1 N2].
      split; [exact Stale'|]. cbn.
      split; [split; lra|]. split; [|split; [reflexivity|exact Disp]].
      intros r I. apply filter_In in I. destruct I as [I _].
      apply in_app_or in I. destruct I as [I|[<-|[]]]; [now apply Hist|].
      cbn. split; lra.
    + rewrite (tick_invalid false f now st V) in *.
      split; [exact Stale'|]. cbn.
      split; [split; assumption|]. split; [|split; [reflexivity|exact Disp]].
      intros r I.
      destruct (now - lastSoundTimestampRef st >? PAUSE_THRESHOLD_MS)%Z;
        [destruct I|].
      apply filter_In in I. now apply Hist.
  - destruct Stale as [T F]. rewrite T. exact Inv.
  - destruct (isListening st) eqn:L; [|exact Inv].
    unfold displayInterval.
    destruct (Js.ltb 1 (smoothedFrequencyRef st)) eqn:B; [|exact Inv].
    apply ltb_lt in B.
    split; [exact Stale|]. cbn.
    split; [split; assumption|]. split; [exact Hist|].
    split; [exact Avg|]. right. split; assumption.
Qed.

Lemma run_keeps_invariant (events : list Event) (st : State) :
  SessionInvariant st -> SessionInvariant (run st events).
Proof.
  revert st. induction events as [|e events IH]; intros st H; cbn; trivial.
  apply IH. now apply handle_keeps_invariant.
Qed.

Lemma reachable_invariant (events : list Event) :
  SessionInvariant (run initial events).
Proof. apply run_keeps_invariant, initial_invariant. Qed.

(** X9.  In every state the component reaches, the smoothed frequency lies
    in [0, 200). *)
Theorem smoothed_stays_below_200 (events : list Event) :
  0 <= smoothedFrequencyRef (run initial events)
  /\ smoothedFrequencyRef (run initial events) < 200.
Proof.
  destruct (reachable_invariant events) as (_ & A & _).
  exact A.
Qed.

(** X10.  In every state the component reaches, every reading of the history
    holds a frequency in [4.4, 200): the history takes smoothed values, which
    can lie below the band of 80 to 200 Hz. *)
Theorem history_values_in_range (events : list Event) (r : Reading) :
  In r (frequencyHistoryRef (run initial events)) ->
  4.4 <= freq r /\ freq r < 200.
Proof.
  destruct (reachable_invariant events) as (_ & _ & H & _).
  apply H.
Qed.

Lemma history_values_in_range_witness :
  4.4 <= freq (mkReading (smooth 100 0) 0)
  /\ freq (mkReading (smooth 100 0) 0) < 200.
Proof.
  apply (history_values_in_range [Click true; AnimationFrame 100 0]).
  vm_compute. left. reflexivity.
Defined.

(** X11.  In every state the component reaches, the published average is the
    mean of the history; it is 0, and the placeholder is shown, exactly when
    the history is empty, and it lies in [4.4, 200) otherwise. *)
Theorem average_is_mean_of_history (events : list Event) :
  let st := run initial events in
  averageFrequency st = averageOf (frequencyHistoryRef st)
  /\ (frequencyHistoryRef st = [] -> averageFrequency st = 0)
  /\ (frequencyHistoryRef st <> [] ->
      4.4 <= averageFrequency st /\ averageFrequency st < 200)
  /\ (shownAverage st = None <-> frequencyHistoryRef st = []).
Proof.
  intro st.
  destruct (reachable_invariant events) as (_ & _ & H & A & _).
  fold st in H, A.
  assert (Empty : frequencyHistoryRef st = [] -> averageFrequency st = 0).
  { intro E. now rewrite A, E. }
  assert (Full : frequencyHistoryRef st <> [] ->
                 4.4 <= averageFrequency st /\ averageFrequency st < 200).
  { intro N. rewrite A. now apply averageOf_bounds. }
  split; [exact A|]. split; [exact Empty|]. split; [exact Full|].
  unfold shownAverage. split.
  - destruct (Js.ltb 0 (averageFrequency st)) eqn:L; [discriminate|].
    intros _. apply ltb_ge in L.
    destruct (frequencyHistoryRef st) as [|r h] eqn:E; trivial.
    destruct Full as [F _]; [discriminate|]. lra.
  - intro E. now rewrite (Empty E).
Qed.

Lemma average_is_mean_of_history_witness :
  let st := run initial [Click true; AnimationFrame 100 0] in
  4.4 <= averageFrequency st /\ averageFrequency st < 200.
Proof.
  apply (average_is_mean_of_history [Click true; AnimationFrame 100 0]).
  discriminate.
Defined.

(** X12.  In every state the component reaches, the stabilized display value
    is 0 or lies in (1, 200): the big number shows the placeholder exactly
    when the value is 0. *)
Theorem displayed_value_skips_dead_zone (events : list Event) :
  let st := run initial events in
  (displayedFrequency st = 0 \/ (1 < displayedFrequency st
                                 /\ displayedFrequency st < 200))
  /\ (shownFrequency st = None <-> displayedFrequency st = 0).
Proof.
  intro st.
  destruct (reachable_invariant events) as (_ & _ & _ & _ & D).
  fold st in D. split; [exact D|].
  unfold shownFrequency. split.
  - destruct (Js.ltb 1 (displayedFrequency st)) eqn:L; [discriminate|].
    intros _. apply ltb_ge in L. destruct D as [D|[D _]]; trivial. lra.
  - intro E. now rewrite E.
Qed.

Lemma displayed_value_skips_dead_zone_witness :
  shownFrequency (run initial [Click true; AnimationFrame 100 0]) = None.
Proof.
  apply (displayed_value_skips_dead_zone [Click true; AnimationFrame 100 0]).
  reflexivity.
Defined.

End Reachable.

(** ** The session: order of the history, first frames after a start *)

Section Ordering.

Import App.

Lemma ordered_app_one (history : list Reading) (r : Reading) :
  OrderedByTime history ->
  (forall x, In x history -> (timestamp x <= timestamp r)%Z) ->
  OrderedByTime (history ++ [r]).
Proof.
  unfold OrderedByTime. induction 1 as [|x l S IH F]; intro H; cbn.
  - repeat constructor.
  - constructor.
    + apply IH. intros y Hy. apply H. now right.
    + apply Forall_app. split; [exact F|].
      constructor; [|constructor]. apply H. now left.
Qed.

Lemma ordered_filter (keep : Reading -> bool) (history : list Reading) :
  OrderedByTime history -> OrderedByTime (filter keep history).
Proof.
  unfold OrderedByTime. induction 1 as [|x l S IH F]; cbn.
  - constructor.
  - destruct (keep x); [|exact IH]. constructor; [exact IH|].
    rewrite Forall_forall in *. intros y Hy. apply F.
    apply filter_In in Hy. tauto.
Qed.

Lemma tick_keeps_order (captured : bool) (f : Q) (t now : Z) (st : State) :
  (t <= now)%Z -> OrderedUpTo t st ->
  OrderedUpTo now (processAudio captured f now st).
Proof.
  intros Le [O B]. destruct (isFrequencyInRange f) eqn:V.
  - rewrite (tick_valid captured f now st V). cbn [frequencyHistoryRef]. split.
    + apply ordered_filter, ordered_app_one; trivial.
      intros x Hx. cbn. specialize (B x Hx). lia.
    + intros r I. apply filter_In in I. destruct I as [I _].
      apply in_app_or in I. destruct I as [I|[<-|[]]]; [|cbn; lia].
      specialize (B r I). lia.
  - rewrite (tick_invalid captured f now st V). cbn [frequencyHistoryRef].
    destruct (now - lastSoundTimestampRef st >? PAUSE_THRESHOLD_MS)%Z.
    + split; [constructor|intros r []].
    + split; [now apply ordered_filter|].
      intros r I. apply filter_In in I. destruct I as [I _].
      specialize (B r I). lia.
Qed.

Lemma run_keeps_order (events : list Event) :
  forall (t : Z) (st : State),
    ClockFrom t events -> OrderedUpTo t st ->
    OrderedByTime (frequencyHistoryRef (run st events)).
Proof.
  induction events as [|e events IH]; intros t st C O; cbn [run fold_left].
  - apply O.
  - fold (run (handle st e) events).
    destruct e as [granted|f now|now|]; cbn [ClockFrom] in C.
    + apply (IH t); trivial. cbn [handle]. unfold handleToggleListening.
      destruct (isListening st); [|destruct granted];
        (split; [constructor|intros r []]).
    + destruct C as [Le C]. apply (IH now); trivial. cbn [handle].
      destruct (animationFrameId st) as [captured|].
      * now apply (tick_keeps_order captured f t).
      * destruct O as [O B]. split; trivial.
        intros r I. specialize (B r I). lia.
    + apply (IH t); trivial. cbn [handle].
      destruct (resetStateTimeoutRef st) as [due|]; trivial.
      destruct (due <=? now)%Z; trivial.
    + apply (IH t); trivial. cbn [handle].
      destruct (isListening st); trivial. unfold displayInterval.
      destruct (Js.ltb 1 (smoothedFrequencyRef st)); trivial.
Qed.

(** X13.  When the frames arrive with times that do not decrease, the
    history is ordered by timestamp in every state the component reaches. *)
Theorem history_is_ordered_by_time (t0 : Z) (events : list Event) :
  ClockFrom t0 events ->
  OrderedByTime (frequencyHistoryRef (run initial events)).
Proof.
  intro C. apply (run_keeps_order events t0); trivial.
  split; [constructor|intros r []].
Qed.

Lemma history_is_ordered_by_time_witness :
  OrderedByTime
    (frequencyHistoryRef
       (run initial [Click true; AnimationFrame 100 0; AnimationFrame 0 16;
                     AnimationFrame 120 32])).
Proof.
  apply (history_is_ordered_by_time 0). cbn. lia.
Defined.

Lemma smooth_monotone (f g s b : Q) :
  f <= g -> s <= b -> smooth f s <= smooth g b.
Proof. intros. unfold smooth, SMOOTHING_ALPHA. lra. Qed.

Lemma ceiling_below_200 (n : nat) :
  smoothRepeatedly n 200 0 <= 200
  /\ smoothRepeatedly n 200 0 <= smoothRepeatedly (S n) 200 0.
Proof.
  induction n as [|n [IH1 IH2]].
  - split; [discriminate|]. cbn. discriminate.
  - cbn [smoothRepeatedly] in *.
    set (b := smoothRepeatedly n 200 0) in *.
    unfold smooth, SMOOTHING_ALPHA in *. split; lra.
Qed.

Lemma ceiling_monotone (n m : nat) :
  (n <= m)%nat -> smoothRepeatedly n 200 0 <= smoothRepeatedly m 200 0.
Proof.
  induction 1 as [|m L IH]; [apply Qle_refl|].
  eapply Qle_trans; [exact IH|apply ceiling_below_200].
Qed.

Lemma frames_raise_slowly (frames : list (Q * Z)) :
  forall (k : nat) (st : State),
    smoothedFrequencyRef st <= smoothRepeatedly k 200 0 ->
    smoothedFrequencyRef (run st (framesOf frames))
    <= smoothRepeatedly (k + length frames) 200 0.
Proof.
  induction frames as [|[f now] frames IH]; intros k st B.
  - cbn. now rewrite Nat.add_0_r.
  - cbn [framesOf map run fold_left fst snd length].
    fold (framesOf frames). fold (run (handle st (AnimationFrame f now)) (framesOf frames)).
    replace (k + S (length frames))%nat with (S k + length frames)%nat by lia.
    apply IH. cbn [handle].
    destruct (animationFrameId st) as [captured|].
    + destruct (isFrequencyInRange f) eqn:V.
      * rewrite (tick_valid captured f now st V). cbn [smoothedFrequencyRef smoothRepeatedly].
        apply isFrequencyInRange_iff in V. apply smooth_monotone; tauto.
      * rewrite (tick_invalid captured f now st V). cbn [smoothedFrequencyRef].
        eapply Qle_trans; [exact B|apply ceiling_below_200].
    + eapply Qle_trans; [exact B|apply ceiling_below_200].
Qed.

Lemma frames_show_smoothed_value (frames : list (Q * Z)) :
  forall st : State,
    detectedFrequency st = smoothedFrequencyRef st ->
    detectedFrequency (run st (framesOf frames))
    = smoothedFrequencyRef (run st (framesOf frames)).
Proof.
  induction frames as [|[f now] frames IH]; intros st E; [exact E|].
  cbn [framesOf map run fold_left fst snd].
  fold (framesOf frames).
  fold (run (handle st (AnimationFrame f now)) (framesOf frames)).
  apply IH. cbn [handle].
  destruct (animationFrameId st) as [captured|]; [|exact E].
  destruct (isFrequencyInRange f) eqn:V.
  - now rewrite (tick_valid captured f now st V).
  - now rewrite (tick_invalid captured f now st V).
Qed.

(** X14.  After a start, whatever the estimates, the first nine frames leave
    the instant value below 80 Hz, so the background keeps the idle color;
    ten frames can be enough (ten estimates of 200 Hz). *)
Theorem band_not_reached_in_nine_frames (frames : list (Q * Z)) :
  (length frames <= 9)%nat ->
  let st := run initial (Click true :: framesOf frames) in
  detectedFrequency st < 80
  /\ backgroundColorOf (detectedFrequency st) = "bg-gray-900"%string
  /\ 80 <= detectedFrequency
             (run initial (Click true :: framesOf (repeat (200, 0%Z) 10))).
Proof.
  intros L st.
  assert (D : detectedFrequency st < 80).
  { unfold st. cbn [run fold_left].
    fold (run (handle initial (Click true)) (framesOf frames)).
    rewrite (frames_show_smoothed_value frames); [|reflexivity].
    eapply Qle_lt_trans.
    - apply (frames_raise_slowly frames 0). cbn. discriminate.
    - eapply Qle_lt_trans; [apply (ceiling_monotone _ 9); cbn; lia|].
      vm_compute. reflexivity. }
  split; [exact D|]. split.
  - unfold backgroundColorOf.
    replace (Qle_bool 80 (detectedFrequency st)) with false.
    + replace (Js.ltb 160 (detectedFrequency st)) with false.
      * replace (Js.ltb 180 (detectedFrequency st)) with false; trivial.
        symmetry. apply ltb_ge. lra.
      * symmetry. apply ltb_ge. lra.
    + symmetry. destruct (Qle_bool 80 (detectedFrequency st)) eqn:E; trivial.
      apply Qle_bool_iff in E. lra.
  - vm_compute. discriminate.
Qed.

Lemma band_not_reached_in_nine_frames_witness :
  detectedFrequency
    (run initial (Click true :: framesOf (repeat (200, 0%Z) 9))) < 80.
Proof.
  apply (band_not_reached_in_nine_frames (repeat (200, 0%Z) 9)).
  cbn. lia.
Defined.

End Ordering.

(** ** The note mapper: octaves, names, low frequencies *)

Section MoreNotes.

Import NoteMapper.
Local Open Scope R_scope.

Lemma noteNumber_of_power (y : R) :
  12 * (ln (A4_FREQUENCY * Rpower 2 (y / 12) / A4_FREQUENCY) / ln 2) = y.
Proof.
  pose proof ln2_pos.
  replace (A4_FREQUENCY * Rpower 2 (y / 12) / A4_FREQUENCY)
    with (Rpower 2 (y / 12)) by (unfold A4_FREQUENCY; field).
  rewrite ln_Rpower. field. lra.
Qed.

Lemma round_of_near (k : Z) (e : R) :
  - / 2 <= e < / 2 -> Math_round (IZR k + e) = k.
Proof.
  intro H. unfold Math_round. apply Zfloor_eq. lra.
Qed.

Lemma power_frequency_pos (y : R) : 0 < A4_FREQUENCY * Rpower 2 y.
Proof.
  unfold A4_FREQUENCY, Rpower. apply Rmult_lt_0_compat; [lra|apply exp_pos].
Qed.

Lemma Rpower_2_succ (y : R) : Rpower 2 (y + 1) = 2 * Rpower 2 y.
Proof.
  rewrite Rpower_plus, Rpower_1 by lra. ring.
Qed.

Lemma rounded_note_nonneg (f : R) :
  27.5 <= f ->
  (0 <= Math_round (12 * (ln (f / A4_FREQUENCY) / ln 2)) + 57)%Z.
Proof.
  intro B. pose proof ln2_pos as L2.
  set (x := 12 * (ln (f / A4_FREQUENCY) / ln 2)).
  assert (Lx : -48 <= x).
  { assert (L : ln (/ 16) <= ln (f / A4_FREQUENCY)).
    { destruct (Req_dec (/ 16) (f / A4_FREQUENCY)) as [E|N].
      - rewrite E. lra.
      - left. apply ln_increasing; [lra|]. unfold A4_FREQUENCY in *. lra. }
    rewrite ln_sixteenth in L. unfold x.
    assert (Q : -4 <= ln (f / A4_FREQUENCY) / ln 2).
    { apply Rmult_le_reg_r with (ln 2); [exact L2|].
      unfold Rdiv. rewrite Rmult_assoc, Rinv_l by lra. lra. }
    lra. }
  pose proof (round_near x) as N.
  assert (G : IZR (-49) < IZR (Math_round x)) by lra.
  apply lt_IZR in G. lia.
Qed.

(** X15.  From 27.5 Hz up, doubling the frequency keeps the note name and the
    deviation in cents, raises the octave by one and doubles the target
    frequency. *)
Theorem doubling_raises_one_octave (f : R) :
  27.5 <= f ->
  exists d d',
    frequencyToNoteDetails f = Some d
    /\ frequencyToNoteDetails (2 * f) = Some d'
    /\ noteName d' = noteName d
    /\ octave d' = (octave d + 1)%Z
    /\ frequency d' = 2 * frequency d
    /\ cents d' = cents d.
Proof.
  intro B. pose proof ln2_pos as L2.
  pose proof (rounded_note_nonneg f B) as Hr.
  set (x := 12 * (ln (f / A4_FREQUENCY) / ln 2)) in *.
  assert (Ex : 12 * (ln (2 * f / A4_FREQUENCY) / ln 2) = x + 12).
  { unfold x. replace (2 * f / A4_FREQUENCY) with (2 * (f / A4_FREQUENCY))
      by (unfold A4_FREQUENCY; field).
    rewrite ln_mult; [field; lra|lra|]. unfold A4_FREQUENCY. lra. }
  assert (Er : Math_round (x + 12) = (Math_round x + 12)%Z).
  { unfold Math_round. rewrite <- Zfloor_addz. f_equal. lra. }
  destruct (frequencyToNoteDetails_value f) as (d & E & A & _ & O & F & C);
    [lra|exact Hr|].
  destruct (frequencyToNoteDetails_value (2 * f))
    as (d' & E' & A' & _ & O' & F' & C'); [lra|rewrite Ex, Er; lia|].
  fold x in A, O, F, C. rewrite Ex, Er in A', O', F', C'.
  exists d, d'. split; [exact E|]. split; [exact E'|].
  replace (Math_round x + 12 + 57)%Z with (Math_round x + 57 + 1 * 12)%Z
    in A', O' by lia.
  rewrite Z.mod_add in A' by lia. rewrite Z.div_add in O' by lia.
  split; [congruence|]. split; [congruence|]. split.
  - rewrite F', F. rewrite plus_IZR.
    replace ((IZR (Math_round x) + 12) / 12)
      with (IZR (Math_round x) / 12 + 1) by field.
    rewrite Rpower_2_succ. ring.
  - rewrite C', C, plus_IZR. ring.
Qed.

Lemma doubling_raises_one_octave_witness :
  exists d d',
    frequencyToNoteDetails 110 = Some d
    /\ frequencyToNoteDetails (2 * 110) = Some d'
    /\ noteName d' = noteName d
    /\ octave d' = (octave d + 1)%Z
    /\ frequency d' = 2 * frequency d
    /\ cents d' = cents d.
Proof.
  apply (doubling_raises_one_octave 110). lra.
Defined.

(** X16.  With the table starting at "A" and the offset 57, every A of the
    reference tuning ([440 * 2^m] Hz, [m >= -4]) is reported under the name
    "F#", with octave [m + 4], itself as the target and 0 cents. *)
Theorem reference_pitch_is_named_F_sharp (m : Z) :
  (-4 <= m)%Z ->
  let f := A4_FREQUENCY * Rpower 2 (IZR m) in
  frequencyToNoteDetails f
  = Some (mkNoteDetails (Some "F#"%string) (m + 4) f 0).
Proof.
  intros Hm f.
  assert (Ef : f = A4_FREQUENCY * Rpower 2 (IZR (12 * m) / 12)).
  { unfold f. do 2 f_equal. rewrite mult_IZR. field. }
  assert (Ex : 12 * (ln (f / A4_FREQUENCY) / ln 2) = IZR (12 * m)).
  { rewrite Ef. apply noteNumber_of_power. }
  assert (Er : Math_round (IZR (12 * m)) = (12 * m)%Z).
  { rewrite <- (Rplus_0_r (IZR (12 * m))). apply round_of_near. lra. }
  destruct (frequencyToNoteDetails_value f) as (d & E & A & _ & O & F & C).
  { apply power_frequency_pos. }
  { rewrite Ex, Er. lia. }
  rewrite Ex, Er in A, O, F, C.
  replace (12 * m + 57)%Z with (9 + (m + 4) * 12)%Z in A, O by lia.
  rewrite Z.mod_add in A by lia. rewrite Z.div_add in O by lia.
  change (9 mod 12)%Z with 9%Z in A. change (9 / 12)%Z with 0%Z in O.
  rewrite E. f_equal. destruct d as [dn doct df dc].
  cbn [noteName octave frequency cents] in A, O, F, C.
  subst dn doct. f_equal.
  - rewrite F. symmetry. exact Ef.
  - rewrite C. lra.
Qed.

Lemma reference_pitch_is_named_F_sharp_witness :
  frequencyToNoteDetails (A4_FREQUENCY * Rpower 2 (IZR 0))
  = Some (mkNoteDetails (Some "F#"%string) 4
            (A4_FREQUENCY * Rpower 2 (IZR 0)) 0).
Proof.
  apply (reference_pitch_is_named_F_sharp 0). lia.
Defined.

(** X17.  A frequency [440 * 2^((k + e) / 12)], [-1/2 <= e < 1/2], whose
    rounded note number [k + 57] is negative and not a multiple of 12 gets no
    note name: the index into the table is negative and the name is
    [undefined]; the target is computed with the index -1 of the missing
    name, and the reported deviation is 150 cents or more. *)
Theorem low_frequency_has_no_name (k : Z) (e : R) :
  - / 2 <= e < / 2 ->
  (k + 57 < 0)%Z ->
  ((k + 57) mod 12 <> 0)%Z ->
  exists d,
    frequencyToNoteDetails (A4_FREQUENCY * Rpower 2 ((IZR k + e) / 12)) = Some d
    /\ noteName d = None
    /\ octave d = ((k + 57) / 12)%Z
    /\ frequency d = getFrequencyForNote None ((k + 57) / 12)
    /\ 150 <= cents d.
Proof.
  intros He Neg NotMult. pose proof ln2_pos as L2.
  set (f := A4_FREQUENCY * Rpower 2 ((IZR k + e) / 12)).
  assert (Pf : 0 < f) by apply power_frequency_pos.
  assert (Ex : 12 * (ln (f / A4_FREQUENCY) / ln 2) = IZR k + e).
  { unfold f. apply noteNumber_of_power. }
  unfold frequencyToNoteDetails.
  destruct (Req_dec_T f 0) as [Z|_]; [lra|].
  rewrite Ex, (round_of_near k e He).
  assert (R : (Z.rem (k + 57) 12 < 0)%Z).
  { pose proof (Z.rem_nonpos (k + 57) 12 ltac:(lia) ltac:(lia)).
    assert (Z.rem (k + 57) 12 <> 0)%Z.
    { intro Z. apply NotMult. apply Z.rem_mod_eq_0; [lia|exact Z]. }
    lia. }
  assert (N : nameAt (Z.rem (k + 57) 12) = None).
  { unfold nameAt. now replace (Z.rem (k + 57) 12 <? 0)%Z with true by lia. }
  rewrite N. eexists. split; [reflexivity|]. cbn [noteName octave frequency cents].
  split; [reflexivity|]. split; [reflexivity|]. split; [reflexivity|].
  set (q := ((k + 57) / 12)%Z).
  assert (Dm : (k + 57 = 12 * q + (k + 57) mod 12)%Z)
    by (unfold q; apply Z_div_mod_eq_full).
  pose proof (Z.mod_pos_bound (k + 57) 12 ltac:(lia)) as Mb.
  unfold getFrequencyForNote.
  change (indexOf None) with (-1)%Z.
  assert (P2 : 0 < Rpower 2 (IZR (-1 + q * 12 - 57) / 12))
    by (unfold Rpower; apply exp_pos).
  unfold Math_log2, f, A4_FREQUENCY.
  replace (440 * Rpower 2 ((IZR k + e) / 12)
           / (440 * Rpower 2 (IZR (-1 + q * 12 - 57) / 12)))
    with (Rpower 2 ((IZR k + e) / 12) * / Rpower 2 (IZR (-1 + q * 12 - 57) / 12))
    by (field; lra).
  rewrite ln_mult;
    [|unfold Rpower; apply exp_pos|now apply Rinv_0_lt_compat].
  rewrite ln_Rinv by exact P2. rewrite !ln_Rpower.
  assert (G : IZR (-1 + q * 12 - 57) + 2 <= IZR k).
  { rewrite <- (plus_IZR _ 2). apply IZR_le. lia. }
  match goal with
  | |- 150 <= ?t =>
      replace t with (100 * (IZR k + e - IZR (-1 + q * 12 - 57)))
        by (field; lra)
  end.
  lra.
Qed.

Lemma low_frequency_has_no_name_witness :
  exists d,
    frequencyToNoteDetails (A4_FREQUENCY * Rpower 2 ((IZR (-70) + 0) / 12)) = Some d
    /\ noteName d = None
    /\ octave d = ((-70 + 57) / 12)%Z
    /\ frequency d = getFrequencyForNote None ((-70 + 57) / 12)
    /\ 150 <= cents d.
Proof.
  apply (low_frequency_has_no_name (-70) 0).
  - lra.
  - lia.
  - cbv. discriminate.
Defined.

(** X18.  One octave up doubles the frequency of a note, whatever the name
    (also a name that is not in the table). *)
Theorem next_octave_doubles (name : option string) (octave : Z) :
  getFrequencyForNote name (octave + 1) = 2 * getFrequencyForNote name octave.
Proof.
  unfold getFrequencyForNote.
  replace (IZR (indexOf name + (octave + 1) * 12 - 57) / 12)
    with (IZR (indexOf name + octave * 12 - 57) / 12 + 1).
  - rewrite Rpower_2_succ. ring.
  - replace (indexOf name + (octave + 1) * 12 - 57)%Z
      with (indexOf name + octave * 12 - 57 + 12)%Z by lia.
    rewrite plus_IZR. field.
Qed.

Lemma indexOf_unknown (name : string) :
  ~ In name NOTE_NAMES -> indexOf (Some name) = (-1)%Z.
Proof.
  intro N. unfold indexOf, NOTE_NAMES in *. cbn [indexFrom].
  repeat match goal with
         | |- context [String.eqb ?n name] =>
             destruct (String.eqb_spec n name) as [E|_];
             [exfalso; apply N; cbn; tauto|]
         end.
  reflexivity.
Qed.

(** X19.  A name that is not in the table (or no name) is looked up as index
    -1: its frequency is the one of "G#" one octave lower. *)
Theorem unknown_name_counts_as_index_minus_1 (name : string) (octave : Z) :
  ~ In name NOTE_NAMES ->
  getFrequencyForNote (Some name) octave
  = getFrequencyForNote (Some "G#"%string) (octave - 1)
  /\ getFrequencyForNote None octave
     = getFrequencyForNote (Some "G#"%string) (octave - 1).
Proof.
  intro N. unfold getFrequencyForNote. rewrite (indexOf_unknown name N).
  change (indexOf None) with (-1)%Z.
  change (indexOf (Some "G#"%string)) with 11%Z.
  replace (11 + (octave - 1) * 12 - 57)%Z with (-1 + octave * 12 - 57)%Z by lia.
  split; reflexivity.
Qed.

Lemma unknown_name_counts_as_index_minus_1_witness :
  getFrequencyForNote (Some "H"%string) 3
  = getFrequencyForNote (Some "G#"%string) (3 - 1).
Proof.
  apply (unknown_name_counts_as_index_minus_1 "H"%string 3).
  cbn. intuition discriminate.
Defined.

End MoreNotes.

(** ** The detector: the loudness of the buffer *)

Lemma dot_scale (k : Q) (a b : list Q) :
  dot (map (Qmult k) a) (map (Qmult k) b) == k * k * dot a b.
Proof.
  revert b. induction a as [|x a IH]; intro b; cbn; [ring|].
  destruct b as [|y b]; cbn; [ring|]. rewrite IH. ring.
Qed.

Lemma correlationAt_scale (k : Q) (buffer : list Q) (lag : Z) :
  (0 <= lag)%Z ->
  correlationAt (scale k buffer) lag == k * k * correlationAt buffer lag.
Proof.
  intro L. rewrite !correlationAt_is_dot by exact L.
  unfold scale. rewrite skipn_map. apply dot_scale.
Qed.

Lemma correlations_scale (k : Q) (buffer : list Q) (sampleRate : Q) :
  ScaledArray (k * k) (correlationsOf buffer sampleRate)
              (correlationsOf (scale k buffer) sampleRate).
Proof.
  split.
  - now rewrite !correlationsOf_length.
  - intros i v v' G G'.
    assert (B : (0 <= i < searchSizeOf sampleRate)%Z).
    { apply (correlationsOf_defined buffer). eauto. }
    rewrite correlationsOf_get in G, G' by exact B.
    injection G as <-. injection G' as <-.
    destruct (minPeriodOf sampleRate <=? i)%Z; [|ring].
    apply correlationAt_scale. lia.
Qed.

Lemma ltb_comp (x x' y y' : Q) :
  x == x' -> y == y' -> Js.ltb x y = Js.ltb x' y'.
Proof.
  intros Ex Ey. unfold Js.ltb. now rewrite Ex, Ey.
Qed.

Section Scaling.

Variables (s : Q) (c c' : list Q).
Hypothesis s_pos : 0 < s.
Hypothesis scaled : ScaledArray s c c'.

Lemma scaled_defined (i : Z) (v : Q) :
  Js.get c i = Some v -> exists v', Js.get c' i = Some v' /\ v' == s * v.
Proof.
  intro G. destruct scaled as [Len Rel].
  destruct (get_in_bounds c' i) as [v' G'].
  { rewrite <- Len. now apply (get_Some_bounds c i v). }
  exists v'. split; [exact G'|]. now apply (Rel i v v').
Qed.

Lemma scaled_defined_back (i : Z) (v' : Q) :
  Js.get c' i = Some v' -> exists v, Js.get c i = Some v /\ v' == s * v.
Proof.
  intro G'. destruct scaled as [Len Rel].
  destruct (get_in_bounds c i) as [v G].
  { rewrite Len. now apply (get_Some_bounds c' i v'). }
  exists v. split; [exact G|]. now apply (Rel i v v').
Qed.

Lemma scaled_undefined (i : Z) :
  Js.get c i = None -> Js.get c' i = None.
Proof.
  intro G. destruct (Js.get c' i) as [v'|] eqn:G'; trivial.
  destruct (scaled_defined_back i v' G') as (v & E & _). congruence.
Qed.

Lemma scaled_lt (x y : Q) : Js.ltb (s * x) (s * y) = Js.ltb x y.
Proof.
  destruct (Js.ltb x y) eqn:E.
  - apply ltb_lt in E. apply ltb_lt. nra.
  - apply ltb_ge in E. apply ltb_ge. nra.
Qed.

Lemma scaled_gt (i j : Z) :
  Js.gt (Js.get c' i) (Js.get c' j) = Js.gt (Js.get c i) (Js.get c j).
Proof.
  destruct (Js.get c i) as [u|] eqn:Gi.
  - destruct (scaled_defined i u Gi) as (u' & -> & Eu).
    destruct (Js.get c j) as [v|] eqn:Gj.
    + destruct (scaled_defined j v Gj) as (v' & -> & Ev). cbn.
      rewrite (ltb_comp v' (s * v) u' (s * u) Ev Eu). apply scaled_lt.
    + now rewrite (scaled_undefined j Gj).
  - now rewrite (scaled_undefined i Gi).
Qed.

Lemma scaled_gt_value (i : Z) (t t' : Q) :
  t' == s * t ->
  Js.gt (Js.get c' i) (Some t') = Js.gt (Js.get c i) (Some t).
Proof.
  intro Et. destruct (Js.get c i) as [u|] eqn:Gi.
  - destruct (scaled_defined i u Gi) as (u' & -> & Eu). cbn.
    rewrite (ltb_comp t' (s * t) u' (s * u) Et Eu). apply scaled_lt.
  - now rewrite (scaled_undefined i Gi).
Qed.

Lemma scaled_firstDip (fuel : nat) (searchSize start : Z) :
  firstDipLoop fuel c' searchSize start = firstDipLoop fuel c searchSize start.
Proof.
  revert start. induction fuel as [|fuel IH]; intro start; cbn; trivial.
  rewrite scaled_gt. destruct (_ && _); trivial.
Qed.

Lemma scaled_maxVal_forward (lo hi : Z) :
  0 < findMaxVal c lo hi ->
  0 < findMaxVal c' lo hi /\ findMaxVal c' lo hi == s * findMaxVal c lo hi.
Proof.
  intro P.
  destruct (findMaxVal_attained c lo hi) as [E|(i & Hi & Gi)].
  { rewrite E in P. discriminate. }
  destruct (scaled_defined i _ Gi) as (v' & G' & Ev).
  assert (Lo : s * findMaxVal c lo hi <= findMaxVal c' lo hi).
  { rewrite <- Ev. now apply (findMaxVal_upper c' lo hi i v'). }
  assert (P' : 0 < findMaxVal c' lo hi) by nra.
  split; [exact P'|].
  destruct (findMaxVal_attained c' lo hi) as [E|(j & Hj & Gj)].
  { rewrite E in P'. discriminate. }
  destruct (scaled_defined_back j _ Gj) as (u & Gu & Eu).
  pose proof (findMaxVal_upper c lo hi j u Hj Gu) as Up.
  apply Qle_antisym; [|exact Lo]. rewrite Eu. nra.
Qed.

Lemma scaled_maxVal_backward (lo hi : Z) :
  0 < findMaxVal c' lo hi -> 0 < findMaxVal c lo hi.
Proof.
  intro P'.
  destruct (findMaxVal_attained c' lo hi) as [E|(j & Hj & Gj)].
  { rewrite E in P'. discriminate. }
  destruct (scaled_defined_back j _ Gj) as (u & Gu & Eu).
  pose proof (findMaxVal_upper c lo hi j u Hj Gu) as Up.
  rewrite Eu in P'. nra.
Qed.

Lemma scaled_isClearPeak (t t' : Q) (i : Z) :
  t' == s * t -> isClearPeak c' t' i = isClearPeak c t i.
Proof.
  intro Et. unfold isClearPeak.
  now rewrite (scaled_gt_value i t t' Et), !scaled_gt.
Qed.

Lemma scaled_firstClearPeak (t t' : Q) (lo hi : Z) :
  t' == s * t -> firstClearPeak c' t' lo hi = firstClearPeak c t lo hi.
Proof.
  intro Et. unfold firstClearPeak.
  replace (find (isClearPeak c' t') (Js.range lo (hi - 1)))
    with (find (isClearPeak c t) (Js.range lo (hi - 1))); trivial.
  generalize (Js.range lo (hi - 1)) as l.
  induction l as [|i l IH]; cbn; trivial.
  rewrite (scaled_isClearPeak t t' i Et), IH. reflexivity.
Qed.

Lemma scaled_FirstMaximum (lo hi T : Z) :
  FirstMaximum c lo hi T -> FirstMaximum c' lo hi T.
Proof.
  intros (B & m & G & Up & Before).
  destruct (scaled_defined T m G) as (m' & G' & Em).
  split; [exact B|]. exists m'. split; [exact G'|]. split.
  - intros i v' Hi Gi. destruct (scaled_defined_back i v' Gi) as (v & Gv & Ev).
    specialize (Up i v Hi Gv). rewrite Ev, Em. nra.
  - intros i v' Hi Gi. destruct (scaled_defined_back i v' Gi) as (v & Gv & Ev).
    specialize (Before i v Hi Gv). rewrite Ev, Em. nra.
Qed.

End Scaling.

Lemma FirstMaximum_unique (c : list Q) (lo hi T1 T2 : Z) :
  FirstMaximum c lo hi T1 -> FirstMaximum c lo hi T2 -> T1 = T2.
Proof.
  intros (B1 & m1 & G1 & U1 & F1) (B2 & m2 & G2 & U2 & F2).
  destruct (Z.lt_trichotomy T1 T2) as [L|[E|L]]; trivial; exfalso.
  - pose proof (F2 T1 m1 ltac:(lia) G1). pose proof (U1 T2 m2 B2 G2). lra.
  - pose proof (F1 T2 m2 ltac:(lia) G2). pose proof (U2 T1 m1 B1 G1). lra.
Qed.

Lemma fallbackMaxPos_FirstMaximum (c : list Q) (lo hi : Z) :
  0 < findMaxVal c lo hi ->
  FirstMaximum c lo hi (fallbackMaxPos c lo hi).
Proof.
  intro P.
  destruct (findMaxVal_attained c lo hi) as [E|(i & Hi & Gi)].
  { rewrite E in P. discriminate. }
  destruct (fallback_loop c (Js.range lo hi) (-1) (-1)%Z) as (A & B & C).
  cbv zeta in *. fold (fallbackMaxPos c lo hi) in C.
  set (r := fold_left _ (Js.range lo hi) (-1, (-1)%Z)) in *.
  assert (Big : findMaxVal c lo hi <= fst r).
  { apply (B i); trivial. now apply in_range. }
  destruct C as [C|(l1 & l2 & E & Gp & Lt & Before)].
  { exfalso. rewrite C in Big. cbn in Big. lra. }
  change (snd r) with (fallbackMaxPos c lo hi) in E, Gp.
  split.
  - apply in_range. rewrite E. apply in_or_app. right. now left.
  - exists (fst r). split; [exact Gp|]. split.
    + intros k v Hk Gk. apply (B k); trivial. now apply in_range.
    + intros k v Hk Gk. apply (Before k); trivial.
      rewrite (range_split _ _ _ _ _ E). now apply in_range.
Qed.

Lemma positive_factor (k : Q) : ~ k == 0 -> 0 < k * k.
Proof. intro N. nra. Qed.

Lemma completion_of_gate (buffer : list Q) (sampleRate : Q) :
  rmsBelowThreshold buffer = false ->
  findFundamentalFrequency buffer sampleRate
  = if Js.valid_length (searchSizeOf sampleRate)
    then if Qle_bool (maxValOf buffer sampleRate) 0 then Return 0
         else Return (frequencyOfPeriod (correlationsOf buffer sampleRate)
                        (searchSizeOf sampleRate) sampleRate
                        (periodOf buffer sampleRate))
    else ThrowRangeError.
Proof.
  intro G. unfold findFundamentalFrequency. rewrite G.
  now destruct (Js.valid_length (searchSizeOf sampleRate)).
Qed.

Lemma scaled_frequencyOfPeriod (s : Q) (c c' : list Q) (searchSize : Z)
      (sampleRate : Q) (T0 : Z) :
  0 < s -> ScaledArray s c c' ->
  length c = Z.to_nat searchSize ->
  frequencyOfPeriod c' searchSize sampleRate T0
  == frequencyOfPeriod c searchSize sampleRate T0.
Proof.
  intros Ps Sc Len.
  destruct (Z_le_dec T0 0) as [Neg|Pos].
  { unfold frequencyOfPeriod. now replace (T0 <=? 0)%Z with true by lia. }
  destruct (Z_le_dec (searchSize - 1) T0) as [Edge|Inside].
  { now rewrite !frequencyOfPeriod_edge by lia. }
  destruct (get_in_bounds c (T0 - 1)) as [ym Gm]; [lia|].
  destruct (get_in_bounds c T0) as [y0 G0]; [lia|].
  destruct (get_in_bounds c (T0 + 1)) as [yp Gp]; [lia|].
  destruct (scaled_defined s c c' Sc (T0 - 1) ym Gm) as (ym' & Gm' & Em).
  destruct (scaled_defined s c c' Sc T0 y0 G0) as (y0' & G0' & E0).
  destruct (scaled_defined s c c' Sc (T0 + 1) yp Gp) as (yp' & Gp' & Ep).
  destruct (frequencyOfPeriod_interior c searchSize sampleRate T0 ym y0 yp)
    as (A & B & C); trivial; [lia|].
  destruct (frequencyOfPeriod_interior c' searchSize sampleRate T0 ym' y0' yp')
    as (A' & B' & C'); trivial; [lia|].
  cbv zeta in *.
  set (d := 2 * (2 * y0 - yp - ym)) in *.
  set (d' := 2 * (2 * y0' - yp' - ym')) in *.
  assert (Ed : d' == s * d).
  { unfold d, d'. rewrite Em, E0, Ep. ring. }
  destruct (Qeq_dec d 0) as [Z|NZ].
  - rewrite A by exact Z. rewrite A'; [reflexivity|]. rewrite Ed, Z. ring.
  - assert (NZ' : ~ d' == 0).
    { rewrite Ed. intro H. apply NZ.
      apply (Qmult_integral s d) in H. destruct H as [H|H]; [lra|exact H]. }
    assert (Ec : inject_Z T0 + (yp' - ym') / d' == inject_Z T0 + (yp - ym) / d).
    { rewrite Ed, Em, Ep. field. split; [exact NZ|lra]. }
    destruct (Qlt_le_dec 0 (inject_Z T0 + (yp - ym) / d)) as [P|N].
    + rewrite C by assumption. rewrite C'; [|assumption|now rewrite Ec].
      now rewrite Ec.
    + rewrite B by assumption. rewrite B'; [reflexivity|assumption|].
      now rewrite Ec.
Qed.

(** X20.  The loudness of the buffer does not change the estimate: for every
    factor [k <> 0], when the buffer and the buffer multiplied by [k] both
    pass the RMS gate, the two calls end the same way, with the same
    number. *)
Theorem loudness_does_not_change_the_estimate
        (k : Q) (buffer : list Q) (sampleRate : Q) :
  ~ k == 0 ->
  rmsBelowThreshold buffer = false ->
  rmsBelowThreshold (scale k buffer) = false ->
  SameOutcome (findFundamentalFrequency buffer sampleRate)
              (findFundamentalFrequency (scale k buffer) sampleRate).
Proof.
  intros Nk Gate Gate'.
  rewrite (completion_of_gate buffer sampleRate Gate).
  rewrite (completion_of_gate (scale k buffer) sampleRate Gate').
  destruct (Js.valid_length (searchSizeOf sampleRate)); [|exact I].
  pose proof (positive_factor k Nk) as Ps.
  pose proof (correlations_scale k buffer sampleRate) as Sc.
  set (c := correlationsOf buffer sampleRate) in *.
  set (c' := correlationsOf (scale k buffer) sampleRate) in *.
  assert (Estart : searchStartOf (scale k buffer) sampleRate
                   = searchStartOf buffer sampleRate).
  { unfold searchStartOf, findFirstDip. fold c c'.
    now rewrite (scaled_firstDip (k * k) c c' Ps Sc). }
  unfold periodOf, maxValOf. fold c c'. rewrite Estart.
  set (lo := searchStartOf buffer sampleRate).
  set (hi := searchSizeOf sampleRate).
  destruct (Qle_bool (findMaxVal c lo hi) 0) eqn:M.
  - replace (Qle_bool (findMaxVal c' lo hi) 0) with true; [reflexivity|].
    symmetry. apply Qle_bool_iff. apply Qnot_lt_le. intro P'.
    apply (scaled_maxVal_backward (k * k) c c' Ps Sc) in P'.
    apply Qle_bool_iff in M. lra.
  - assert (P : 0 < findMaxVal c lo hi).
    { apply Qnot_le_lt. intro L. apply Qle_bool_iff in L. congruence. }
    destruct (scaled_maxVal_forward (k * k) c c' Ps Sc lo hi P) as [P' Em].
    replace (Qle_bool (findMaxVal c' lo hi) 0) with false.
    2:{ symmetry. destruct (Qle_bool (findMaxVal c' lo hi) 0) eqn:L; trivial.
        apply Qle_bool_iff in L. lra. }
    assert (Ep : choosePeriod c' (findMaxVal c' lo hi * 0.9) lo hi
                 = choosePeriod c (findMaxVal c lo hi * 0.9) lo hi).
    { unfold choosePeriod.
      rewrite (scaled_firstClearPeak (k * k) c c' Ps Sc
                 (findMaxVal c lo hi * 0.9) (findMaxVal c' lo hi * 0.9))
        by (rewrite Em; ring).
      destruct (firstClearPeak c (findMaxVal c lo hi * 0.9) lo hi =? -1)%Z;
        trivial.
      apply (FirstMaximum_unique c' lo hi).
      - now apply fallbackMaxPos_FirstMaximum.
      - apply (scaled_FirstMaximum (k * k) c c' Ps Sc).
        now apply fallbackMaxPos_FirstMaximum. }
    rewrite Ep. cbn [SameOutcome]. symmetry.
    apply (scaled_frequencyOfPeriod (k * k)); trivial.
    apply correlationsOf_length.
Qed.

Lemma loudness_does_not_change_the_estimate_witness :
  SameOutcome (findFundamentalFrequency twoPeaks 480)
              (findFundamentalFrequency (scale (-(1 # 3)) twoPeaks) 480).
Proof.
  apply (loudness_does_not_change_the_estimate (-(1 # 3)) twoPeaks 480).
  - discriminate.
  - reflexivity.
  - reflexivity.
Defined.
